(** * LogicLens: the solve pipeline, its HTTP routes and the browser history

    A shallow embedding of
      - [parseResponse], [tryVisionSolve], [textOnlySolve], [solveFromImage],
        [solveFromText] and [chatCompletion] of the HuggingFace service,
      - the [/solve] and [/solve-text] route handlers,
      - [saveToHistory] of the browser controller,
    together with the properties the specification states about them.

    JavaScript strings are sequences of code units.  The development works over
    the texts whose code units are below 256 and writes them as [string], one
    [ascii] per code unit, so that [String.length] is the [.length] of the
    source.

    The effects of the server are the outbound calls to the inference
    provider: a computation reads the answers of the provider from a [world]
    and records the calls it makes in a trace.  The logger only writes to the
    console and is left out. *)

From stdpp Require Import gmap strings list.
From Stdlib Require Import ZArith QArith Ascii String.

Close Scope Q_scope.
Open Scope string_scope.

Set Warnings "-register-all".

(** ** JavaScript strings *)

Module JsString.

Definition quote : ascii := "034"%char.
Definition newline : ascii := "010"%char.

(** The code units below 256 that ECMAScript counts as WhiteSpace or
    LineTerminator: TAB, LF, VT, FF, CR, SPACE and NBSP.  They are what
    [String.prototype.trim] removes and what the regex class [\s] accepts. *)
Definition is_space (c : ascii) : bool :=
  match nat_of_ascii c with
  | 9 | 10 | 11 | 12 | 13 | 32 | 160 => true
  | _ => false
  end.

(** [\w] of a regex without the unicode flag: [A-Za-z0-9_]. *)
Definition is_word (c : ascii) : bool :=
  let n := nat_of_ascii c in
  (((65 <=? n) && (n <=? 90)) || ((97 <=? n) && (n <=? 122))
   || ((48 <=? n) && (n <=? 57)) || (n =? 95))%nat.

Fixpoint trimStart (s : string) : string :=
  match s with
  | String c r => if is_space c then trimStart r else s
  | EmptyString => EmptyString
  end.

(** [trimEnd] drops the trailing run of white space: a character stays when
    it is not a space or when something stays after it. *)
Fixpoint trimEnd (s : string) : string :=
  match s with
  | String c r =>
      match trimEnd r with
      | EmptyString => if is_space c then EmptyString else String c EmptyString
      | r' => String c r'
      end
  | EmptyString => EmptyString
  end.

Definition trim (s : string) : string := trimEnd (trimStart s).

(** [s.split(sep)] for a one-character separator: never the empty list, the
    empty string splits into one empty piece. *)
Fixpoint split (sep : ascii) (s : string) : list string :=
  match s with
  | EmptyString => [EmptyString]
  | String c r =>
      if Ascii.eqb c sep then EmptyString :: split sep r
      else match split sep r with
           | h :: t => String c h :: t
           | [] => [String c EmptyString]
           end
  end.

(** [s.substring(0, n)] *)
Fixpoint substring0 (n : nat) (s : string) : string :=
  match n, s with
  | S n', String c r => String c (substring0 n' r)
  | _, _ => EmptyString
  end.

(** [s.startsWith(p)]: the rest of [s] after [p], when [p] is a prefix. *)
Fixpoint strip_prefix (p s : string) : option string :=
  match p, s with
  | EmptyString, _ => Some s
  | String a p', String b s' => if Ascii.eqb a b then strip_prefix p' s' else None
  | String _ _, EmptyString => None
  end.

Definition startsWith (s p : string) : bool :=
  match strip_prefix p s with Some _ => true | None => false end.

(** The suffix of [s] that starts at the first occurrence of [c]. *)
Fixpoint from_first (c : ascii) (s : string) : option string :=
  match s with
  | EmptyString => None
  | String a r => if Ascii.eqb a c then Some s else from_first c r
  end.

(** The prefix of [s] that ends at the last occurrence of [c]. *)
Fixpoint upto_last (c : ascii) (s : string) : option string :=
  match s with
  | EmptyString => None
  | String a r =>
      match upto_last c r with
      | Some p => Some (String a p)
      | None => if Ascii.eqb a c then Some (String a EmptyString) else None
      end
  end.

(** [c] occurs in [s]. *)
Fixpoint occurs (c : ascii) (s : string) : bool :=
  match s with
  | String a r => Ascii.eqb a c || occurs c r
  | EmptyString => false
  end.

(** Every character of [l] is white space. *)
Fixpoint all_space (l : string) : bool :=
  match l with
  | String c r => is_space c && all_space r
  | EmptyString => true
  end.

(** [lines.join('\n')] *)
Fixpoint join (lines : list string) : string :=
  match lines with
  | [] => EmptyString
  | [l] => l
  | l :: rest => l ++ String newline (join rest)
  end.

(** [c.repeat(n)] *)
Fixpoint repeat (c : ascii) (n : nat) : string :=
  match n with
  | O => EmptyString
  | S n' => String c (repeat c n')
  end.

(** Decimal text of a non-negative integer, as [String(n)] prints it. *)
Definition digit_char (d : N) : ascii := ascii_of_N (48 + d).

Fixpoint decimal_pos (fuel : nat) (n : N) (acc : string) : string :=
  match fuel with
  | O => acc
  | S f =>
      let acc' := String (digit_char (n mod 10)) acc in
      if (n <? 10)%N then acc' else decimal_pos f (n / 10)%N acc'
  end.

Definition decimal (n : N) : string := decimal_pos (S (N.to_nat (N.log2 n))) n EmptyString.

End JsString.

(** ** JavaScript values *)

(** A number as its JSON text denotes it: [mantissa * 10 ^ exponent], negated
    when [negative].  Only its sign and whether it is zero are ever inspected. *)
Record jsnumber := JsNumber { negative : bool; mantissa : N; exponent : Z }.

(** The values [JSON.parse] can build.  An object keeps its members in the
    order of the text, duplicates included. *)
Inductive jsval :=
| JNull
| JBool (b : bool)
| JNumber (n : jsnumber)
| JString (s : string)
| JArray (elements : list jsval)
| JObject (members : list (string * jsval)).

Module JsValue.

(** A JSON number is the double nearest to the decimal it writes.  That
    double is zero when the mantissa is, and when the decimal is at most
    [2 ^ -1075], half of the smallest positive double. *)
Definition number_is_zero (n : jsnumber) : bool :=
  (mantissa n =? 0)%N
  || ((exponent n <? 0)%Z
      && (Z.of_N (mantissa n) * 2 ^ 1075 <=? 10 ^ (- exponent n))%Z).

(** [ToBoolean]; [None] stands for [undefined]. *)
Definition truthy (v : option jsval) : bool :=
  match v with
  | None | Some JNull => false
  | Some (JBool b) => b
  | Some (JNumber n) => negb (number_is_zero n)
  | Some (JString s) => negb (String.eqb s EmptyString)
  | Some (JArray _) | Some (JObject _) => true
  end.

(** [a || b] on values *)
Definition or_else (a : option jsval) (b : jsval) : jsval :=
  match a with
  | Some v => if truthy a then v else b
  | None => b
  end.

(** The member a key names: the last one the text gave it. *)
Fixpoint lookup_member (k : string) (ms : list (string * jsval)) : option jsval :=
  match ms with
  | [] => None
  | (k', v) :: rest =>
      match lookup_member k rest with
      | Some v' => Some v'
      | None => if String.eqb k' k then Some v else None
      end
  end.

(** [v.k] for a key [k] that no prototype defines, on a value that is
    neither [null] nor [undefined]: only an object has such a property. *)
Definition get (k : string) (v : jsval) : option jsval :=
  match v with
  | JObject ms => lookup_member k ms
  | _ => None
  end.

(** [v[0]] on a value that is neither [null] nor [undefined]. *)
Definition get0 (v : jsval) : option jsval :=
  match v with
  | JArray (x :: _) => Some x
  | JString (String c _) => Some (JString (String c EmptyString))
  | JObject ms => lookup_member "0" ms
  | _ => None
  end.

(** [v?.k] and [v?.[0]]: [undefined] and [null] short-circuit. *)
Definition opt_get (k : string) (v : option jsval) : option jsval :=
  match v with
  | None | Some JNull => None
  | Some x => get k x
  end.

Definition opt_get0 (v : option jsval) : option jsval :=
  match v with
  | None | Some JNull => None
  | Some x => get0 x
  end.

Definition isArray (v : option jsval) : bool :=
  match v with Some (JArray _) => true | _ => false end.

Definition is_string (v : option jsval) : bool :=
  match v with Some (JString _) => true | _ => false end.

End JsValue.

(** ** [JSON.parse] *)

(** The built-in of the platform, over the grammar of ECMA-404.  A result
    [None] is the [SyntaxError] it throws.  A [\u] escape that names a code
    unit above 255 leaves the alphabet of the development and is reported as
    [None] as well. *)
Module Json.

Import JsString.

(** JSON white space is TAB, LF, CR and SPACE only. *)
Definition is_ws (c : ascii) : bool :=
  match nat_of_ascii c with
  | 9 | 10 | 13 | 32 => true
  | _ => false
  end.

Fixpoint skip_ws (s : string) : string :=
  match s with
  | String c r => if is_ws c then skip_ws r else s
  | EmptyString => EmptyString
  end.

Definition is_digit (c : ascii) : bool :=
  let n := nat_of_ascii c in ((48 <=? n) && (n <=? 57))%nat.

Definition digit_value (c : ascii) : N := N_of_ascii c - 48.

Definition hex_value (c : ascii) : option N :=
  let n := N_of_ascii c in
  if ((48 <=? n) && (n <=? 57))%N then Some (n - 48)%N
  else if ((65 <=? n) && (n <=? 70))%N then Some (n - 55)%N
  else if ((97 <=? n) && (n <=? 102))%N then Some (n - 87)%N
  else None.

Definition hex4 (a b c d : ascii) : option N :=
  match hex_value a, hex_value b, hex_value c, hex_value d with
  | Some x, Some y, Some z, Some w => Some (((x * 16 + y) * 16 + z) * 16 + w)%N
  | _, _, _, _ => None
  end.

Definition escape_char (c : ascii) : option ascii :=
  match nat_of_ascii c with
  | 34 => Some "034"%char   (* quote *)
  | 92 => Some "092"%char   (* backslash *)
  | 47 => Some "047"%char   (* slash *)
  | 98 => Some "008"%char   (* b: backspace *)
  | 102 => Some "012"%char  (* f: form feed *)
  | 110 => Some "010"%char  (* n: line feed *)
  | 114 => Some "013"%char  (* r: carriage return *)
  | 116 => Some "009"%char  (* t: tab *)
  | _ => None
  end.

(** The text after the character [c], when the text starts with it. *)
Definition expect (c : ascii) (s : string) : option string :=
  match s with
  | String a r => if Ascii.eqb a c then Some r else None
  | EmptyString => None
  end.

(** The characters of a string literal after its opening quote, up to the
    closing one; the result is the string and the text that follows. *)
Fixpoint parse_chars (s : string) : option (string * string) :=
  match s with
  | EmptyString => None
  | String c r =>
      if Ascii.eqb c quote then Some (EmptyString, r)
      else if Ascii.eqb c "092" then
        match r with
        | String e r' =>
            if Ascii.eqb e "u" then
              match r' with
              | String h1 (String h2 (String h3 (String h4 r''))) =>
                  match hex4 h1 h2 h3 h4 with
                  | Some n =>
                      if (n <? 256)%N then
                        match parse_chars r'' with
                        | Some (t, rest) => Some (String (ascii_of_N n) t, rest)
                        | None => None
                        end
                      else None
                  | None => None
                  end
              | _ => None
              end
            else
              match escape_char e with
              | Some x =>
                  match parse_chars r' with
                  | Some (t, rest) => Some (String x t, rest)
                  | None => None
                  end
              | None => None
              end
        | EmptyString => None
        end
      else if (nat_of_ascii c <? 32)%nat then None
      else
        match parse_chars r with
        | Some (t, rest) => Some (String c t, rest)
        | None => None
        end
  end.

(** A run of digits: its value continuing [acc], how many there were, and the
    text that follows. *)
Fixpoint parse_digits (s : string) (acc : N) (count : nat) : N * nat * string :=
  match s with
  | String c r =>
      if is_digit c then parse_digits r (acc * 10 + digit_value c)%N (S count)
      else (acc, count, s)
  | EmptyString => (acc, count, s)
  end.

(** [int]: a single [0], or a digit run that does not start with [0]. *)
Definition parse_int (s : string) : option (N * string) :=
  match s with
  | String c r =>
      if Ascii.eqb c "0" then Some (0%N, r)
      else if is_digit c then
        let '(n, _, rest) := parse_digits s 0 0 in Some (n, rest)
      else None
  | EmptyString => None
  end.

(** [frac]: the mantissa extended by the digits after the point and the
    number of those digits. *)
Definition parse_frac (m : N) (s : string) : option (N * nat * string) :=
  match expect "." s with
  | Some r =>
      let '(m', k, rest) := parse_digits r m 0 in
      match k with O => None | S _ => Some (m', k, rest) end
  | None => Some (m, O, s)
  end.

(** [exp]: the exponent after [e] or [E], zero when there is none. *)
Definition parse_exp (s : string) : option (Z * string) :=
  match s with
  | String c r =>
      if Ascii.eqb c "e" || Ascii.eqb c "E" then
        let '(sign, r1) :=
          match expect "+" r, expect "-" r with
          | Some r', _ => (1%Z, r')
          | None, Some r' => ((-1)%Z, r')
          | None, None => (1%Z, r)
          end in
        let '(e, k, rest) := parse_digits r1 0 0 in
        match k with O => None | S _ => Some ((sign * Z.of_N e)%Z, rest) end
      else Some (0%Z, s)
  | EmptyString => Some (0%Z, s)
  end.

Definition parse_number (s : string) : option (jsnumber * string) :=
  let '(neg, s1) :=
    match expect "-" s with
    | Some r => (true, r)
    | None => (false, s)
    end in
  match parse_int s1 with
  | Some (i, s2) =>
      match parse_frac i s2 with
      | Some (m, k, s3) =>
          match parse_exp s3 with
          | Some (e, s4) => Some (JsNumber neg m (e - Z.of_nat k), s4)
          | None => None
          end
      | None => None
      end
  | None => None
  end.

(** [true], [false], [null] or a number. *)
Definition parse_literal (s : string) : option (jsval * string) :=
  match strip_prefix "true" s, strip_prefix "false" s, strip_prefix "null" s with
  | Some rest, _, _ => Some (JBool true, rest)
  | _, Some rest, _ => Some (JBool false, rest)
  | _, _, Some rest => Some (JNull, rest)
  | None, None, None =>
      match parse_number s with
      | Some (n, rest) => Some (JNumber n, rest)
      | None => None
      end
  end.

(** One value, with the white space before it; then the rest of an array
    after an element is due, and the rest of an object after a member is
    due.  [fuel] bounds the nesting of the recursion. *)
Fixpoint parse_value (fuel : nat) (s : string) : option (jsval * string) :=
  match fuel with
  | O => None
  | S f =>
      match skip_ws s with
      | String c r as s' =>
          if Ascii.eqb c "{" then
            match expect "}" (skip_ws r) with
            | Some r' => Some (JObject [], r')
            | None => parse_members f r []
            end
          else if Ascii.eqb c "[" then
            match expect "]" (skip_ws r) with
            | Some r' => Some (JArray [], r')
            | None => parse_elements f r []
            end
          else if Ascii.eqb c quote then
            match parse_chars r with
            | Some (t, rest) => Some (JString t, rest)
            | None => None
            end
          else parse_literal s'
      | EmptyString => None
      end
  end
with parse_elements (fuel : nat) (s : string) (acc : list jsval) : option (jsval * string) :=
  match fuel with
  | O => None
  | S f =>
      match parse_value f s with
      | Some (v, r) =>
          match expect "," (skip_ws r), expect "]" (skip_ws r) with
          | Some r', _ => parse_elements f r' (v :: acc)
          | None, Some r' => Some (JArray (rev (v :: acc)), r')
          | None, None => None
          end
      | None => None
      end
  end
with parse_members (fuel : nat) (s : string) (acc : list (string * jsval)) : option (jsval * string) :=
  match fuel with
  | O => None
  | S f =>
      match expect quote (skip_ws s) with
      | Some r =>
          match parse_chars r with
          | Some (k, r1) =>
              match expect ":" (skip_ws r1) with
              | Some r2 =>
                  match parse_value f r2 with
                  | Some (v, r3) =>
                      match expect "," (skip_ws r3), expect "}" (skip_ws r3) with
                      | Some r4, _ => parse_members f r4 ((k, v) :: acc)
                      | None, Some r4 => Some (JObject (rev ((k, v) :: acc)), r4)
                      | None, None => None
                      end
                  | None => None
                  end
              | None => None
              end
          | None => None
          end
      | None => None
      end
  end.

(** The keys of an object [v], apart from those of [acc], are shorter than
    [bound]. *)
Definition keys_within (bound : nat) (acc : list (string * jsval)) (v : jsval) : Prop :=
  match v with
  | JObject ms =>
      forall k x, In (k, x) ms -> In (k, x) acc \/ (String.length k < bound)%nat
  | _ => True
  end.

(** [JSON.parse(s)]: one value and nothing but white space after it.  Every
    step of the recursion consumes a character, so twice the length of the
    text is fuel enough ([FuelFacts.parse_adequate]). *)
Definition parse (s : string) : option jsval :=
  match parse_value (2 * String.length s + 2) s with
  | Some (v, rest) =>
      match skip_ws rest with
      | EmptyString => Some v
      | String _ _ => None
      end
  | None => None
  end.

End Json.

(** A text written with an apostrophe for each double quote it has. *)
Fixpoint dq (s : string) : string :=
  match s with
  | String c r => String (if Ascii.eqb c "'" then JsString.quote else c) (dq r)
  | EmptyString => EmptyString
  end.

(** ** Errors and results *)

(** What a [throw] carries.  [Error] is built by the source with its message;
    the others are raised by the platform, whose wording of them is its own
    (see [platform]). *)
Inductive jserror :=
| Error (message : string)
| AbortError
| SyntaxError (text : string)
| TypeError (what : string).

Inductive result (A : Type) :=
| Ok (a : A)
| Throw (e : jserror).

Arguments Ok {A} a.
Arguments Throw {A} e.

(** [v.k] where [v] may be [null]: reading a property of [null] throws. *)
Definition get_prop (k : string) (v : jsval) : result (option jsval) :=
  match v with
  | JNull => Throw (TypeError "Cannot read properties of null")
  | _ => Ok (JsValue.get k v)
  end.

(** ** The response parser *)

Record Solution := {
  previewText : jsval;
  answer : jsval;
  steps : list jsval;
  explanation : jsval
}.

(** [text.match(/\{[\s\S]*\}/)]: the class [[\s\S]] accepts every code unit
    and the star is greedy, so the match runs from the first opening brace
    to the last closing brace after it. *)
Definition jsonMatch (text : string) : option string :=
  match JsString.from_first "{" text with
  | Some (String b r) =>
      match JsString.upto_last "}" r with
      | Some p => Some (String b p)
      | None => None
      end
  | _ => None
  end.

(** [text.split('\n').filter(l => l.trim().length > 0)] *)
Definition fallback_steps (text : string) : list string :=
  List.filter (fun l => (0 <? String.length (JsString.trim l))%nat)
              (JsString.split JsString.newline text).

(** The object [fallback] of [parseResponse]. *)
Definition fallback (text fallbackPreview : string) : Solution :=
  {| previewText := JsValue.or_else (Some (JString fallbackPreview)) (JString "Problem");
     answer := JString "See explanation below";
     steps := map JString (fallback_steps text);
     explanation := JString text |}.

(** The body of the [try] block: [Ok (Some s)] when it returns [s],
    [Ok None] when it falls through, [Throw] when [JSON.parse] or a property
    access throws. *)
Definition parse_block (text fallbackPreview : string) : result (option Solution) :=
  match jsonMatch text with
  | Some m =>
      match Json.parse m with
      | None => Throw (SyntaxError m)
      | Some parsed =>
          match get_prop "previewText" parsed, get_prop "answer" parsed,
                get_prop "steps" parsed, get_prop "explanation" parsed with
          | Ok p, Ok a, Ok st, Ok e =>
              let fb := fallback text fallbackPreview in
              Ok (Some
                {| previewText :=
                     JsValue.or_else p
                       (JsValue.or_else (Some (JString fallbackPreview)) (JString "Problem"));
                   answer := JsValue.or_else a (answer fb);
                   steps := match st with
                            | Some (JArray l) => l
                            | _ => steps fb
                            end;
                   explanation := JsValue.or_else e (explanation fb) |})
          | Throw err, _, _, _ | _, Throw err, _, _
          | _, _, Throw err, _ | _, _, _, Throw err => Throw err
          end
      end
  | None => Ok None
  end.

(** [parseResponse(text, fallbackPreview = '')]; the result [None] is [null]. *)
Definition parseResponse (text fallbackPreview : string) : result (option Solution) :=
  if String.eqb text EmptyString then Ok None
  else
    match parse_block text fallbackPreview with
    | Ok (Some s) => Ok (Some s)
    | Ok None => Ok (Some (fallback text fallbackPreview))
    | Throw _ => Ok (Some (fallback text fallbackPreview))
    end.

(** ** The inference provider and the effects of a request *)

(** The fixed instructional texts sent to the models; only the problem text
    placed inside the second one varies. *)
Inductive prompt :=
| VisionPrompt
| SolvePrompt (problemText : string).

Inductive chat_content :=
| ImageAndText (image_url : string) (text : prompt)
| PlainText (text : prompt).

Record chat_message := { role : string; content : chat_content }.

(** One outbound call: the body [{ model, messages, max_tokens }] posted to
    the chat-completion endpoint (its [temperature] is a constant) and the
    delay after which the call's own timer aborts it. *)
Record request := {
  model : string;
  messages : list chat_message;
  max_tokens : Z;
  timeoutMs : N
}.

(** What [fetch] and [response.text()] can come to: the timer fired first,
    the network failed, or a status and a body arrived. *)
Inductive fetch_outcome :=
| Aborted
| NetworkFailure (what : string)
| Response (status : N) (responseText : string).

(** The platform's wording of the errors it raises. *)
Record platform := {
  abort_message : string;
  syntax_error_message : string -> string;
  type_error_message : string -> string
}.

(** The world a request runs in: the answer of the provider to the [n]-th
    outbound call, and the platform. *)
Record world := {
  fetch : nat -> request -> fetch_outcome;
  engine : platform
}.

Definition message_of (p : platform) (e : jserror) : string :=
  match e with
  | Error m => m
  | AbortError => abort_message p
  | SyntaxError t => syntax_error_message p t
  | TypeError w => type_error_message p w
  end.

(** A computation reads the world, appends the calls it makes to the trace of
    outbound calls, and returns or throws. *)
Definition M (A : Type) : Type := world -> list request -> result A * list request.

Definition ret {A} (a : A) : M A := fun _ tr => (Ok a, tr).

Definition throw {A} (e : jserror) : M A := fun _ tr => (Throw e, tr).

Definition bind {A B} (m : M A) (k : A -> M B) : M B :=
  fun w tr =>
    match m w tr with
    | (Ok a, tr') => k a w tr'
    | (Throw e, tr') => (Throw e, tr')
    end.

(** [try { m } catch (err) { h err }] *)
Definition try_catch {A} (m : M A) (h : jserror -> M A) : M A :=
  fun w tr =>
    match m w tr with
    | (Ok a, tr') => (Ok a, tr')
    | (Throw e, tr') => h e w tr'
    end.

Definition lift {A} (r : result A) : M A := fun _ tr => (r, tr).

Definition call (req : request) : M fetch_outcome :=
  fun w tr => (Ok (fetch w (List.length tr) req), (tr ++ [req])%list).

Notation "x <- m ;; k" := (bind m (fun x => k))
  (at level 100, m at next level, right associativity).

(** ** The HuggingFace service *)

Definition VISION_MODELS : list string := ["Qwen/Qwen2.5-VL-7B-Instruct"].
Definition TEXT_LLM : string := "mistralai/Mistral-7B-Instruct-v0.2".
Definition VISION_TIMEOUT_MS : N := 20000.
Definition TEXT_TIMEOUT_MS : N := 60000.

(** [response.ok] *)
Definition status_ok (status : N) : bool := ((200 <=? status) && (status <=? 299))%N.

(** [data?.choices?.[0]?.message?.content || ''] *)
Definition first_choice_content (data : jsval) : jsval :=
  JsValue.or_else
    (JsValue.opt_get "content"
       (JsValue.opt_get "message"
          (JsValue.opt_get0 (JsValue.opt_get "choices" (Some data)))))
    (JString "").

(** [chatCompletion(model, messages, maxTokens, timeoutMs)].  The [catch]
    turns the abort of the timer into the time-out error and rethrows the
    rest; [content.substring] exists on strings only.  The seconds of the
    message are [timeoutMs / 1000], a whole number for both configured
    delays. *)
Definition chatCompletion (model : string) (messages : list chat_message)
    (maxTokens : Z) (timeoutMs : N) : M string :=
  try_catch
    (out <- call {| model := model; messages := messages;
                    max_tokens := maxTokens; timeoutMs := timeoutMs |};;
     match out with
     | Aborted => throw AbortError
     | NetworkFailure what => throw (TypeError what)
     | Response status responseText =>
         if negb (status_ok status) then
           throw (Error ("HF API " ++ JsString.decimal status ++ ": "
                         ++ JsString.substring0 200 responseText))
         else
           match Json.parse responseText with
           | None => throw (SyntaxError responseText)
           | Some data =>
               match first_choice_content data with
               | JString content => ret content
               | _ => throw (TypeError "content.substring is not a function")
               end
           end
     end)
    (fun err =>
       match err with
       | AbortError =>
           throw (Error ("Request to " ++ model ++ " timed out ("
                         ++ JsString.decimal (timeoutMs / 1000) ++ "s). Try again."))
       | _ => throw err
       end).

(** The loop of [tryVisionSolve] over the models that are left.  An attempt
    returns from the function with the parsed content when the content is
    longer than 10; a shorter content or a caught error moves on to the next
    model. *)
Fixpoint tryVisionModels (models : list string) (messages : list chat_message)
    : M (option Solution) :=
  match models with
  | [] => ret None
  | model :: rest =>
      attempt <- try_catch
                   (content <- chatCompletion model messages 1200 VISION_TIMEOUT_MS;;
                    if negb (String.eqb content EmptyString)
                       && (10 <? String.length content)%nat
                    then r <- lift (parseResponse content "");; ret (Some r)
                    else ret None)
                   (fun _ => ret None);;
      match attempt with
      | Some r => ret r
      | None => tryVisionModels rest messages
      end
  end.

(** The [messages] of [tryVisionSolve]: the image as a data URI, then the
    instructions. *)
Definition vision_messages (base64Image : string) : list chat_message :=
  let imageUrl :=
    if JsString.startsWith base64Image "data:" then base64Image
    else "data:image/png;base64," ++ base64Image in
  [ {| role := "user"; content := ImageAndText imageUrl VisionPrompt |} ].

Definition tryVisionSolve (base64Image : string) : M (option Solution) :=
  tryVisionModels VISION_MODELS (vision_messages base64Image).

(** The [messages] of [textOnlySolve]. *)
Definition text_messages (problemText : string) : list chat_message :=
  [ {| role := "user"; content := PlainText (SolvePrompt problemText) |} ].

Definition textOnlySolve (problemText : string) : M (option Solution) :=
  content <- chatCompletion TEXT_LLM (text_messages problemText) 1200 TEXT_TIMEOUT_MS;;
  lift (parseResponse content problemText).

Definition UNREADABLE_IMAGE_PROBLEM : string :=
  "The user uploaded an image of a math/science problem but the vision models could not process it. Generate a helpful response explaining that the image could not be read and suggest they try: 1) a clearer photo, 2) better lighting, 3) typing the problem instead.".

(** The four assignments [solveFromImage] makes to the object the fallback
    gave: they overwrite every field it has. *)
Definition mark_unreadable (fallbackResult : Solution) : Solution :=
  {| previewText := JString "Image could not be read";
     answer := JString "Could not read image";
     steps := [ JString "The AI vision models were unable to process this image.";
                JString "Try taking a clearer, well-lit photo of the problem.";
                JString "Make sure the text/equations are clearly visible.";
                JString "Alternatively, you can type the problem directly." ];
     explanation := JString "The free-tier AI vision models may be temporarily unavailable or the image quality was insufficient. Please try again or use the text input option." |}.

Definition ALL_UNAVAILABLE : string :=
  "All AI models are currently unavailable. Please try again in a few minutes.".

(** [solveFromImage(base64Image)].  The [try] block returns from the function
    when the fallback gave an object; otherwise, and after a caught error,
    control reaches the final [throw]. *)
Definition solveFromImage (base64Image : string) : M Solution :=
  visionResult <- tryVisionSolve base64Image;;
  match visionResult with
  | Some s => ret s
  | None =>
      returned <- try_catch
                    (fallbackResult <- textOnlySolve UNREADABLE_IMAGE_PROBLEM;;
                     match fallbackResult with
                     | Some r => ret (Some (mark_unreadable r))
                     | None => ret None
                     end)
                    (fun _ => ret None);;
      match returned with
      | Some s => ret s
      | None => throw (Error ALL_UNAVAILABLE)
      end
  end.

(** [solveFromText(text)]: what [textOnlySolve] resolves to, [null] included. *)
Definition solveFromText (text : string) : M (option Solution) :=
  textOnlySolve text.

(** ** The routes *)

Record config := { hfApiKey : option string }.

(** The negation of [!config.hfApiKey || config.hfApiKey === 'hf_your_key_here'] *)
Definition credential_configured (cfg : config) : bool :=
  match hfApiKey cfg with
  | Some k => negb (String.eqb k EmptyString) && negb (String.eqb k "hf_your_key_here")
  | None => false
  end.

(** What [res.json] sends: an error object, or the value the orchestrator
    resolved to, which is [null] when there is no solution. *)
Inductive response_body :=
| ErrorBody (error code : string)
| SolutionBody (solution : option Solution).

Record response := { status : N; body : response_body }.

(** [req.body] after [express.json()]: the parser accepts a top-level object
    or array only, and leaves the empty object when the request carries no
    JSON. *)
Inductive parsed_body :=
| ObjectBody (members : list (string * jsval))
| ArrayBody (elements : list jsval).

(** [const { k } = req.body] for a key that no prototype defines. *)
Definition field (k : string) (b : parsed_body) : option jsval :=
  match b with
  | ObjectBody ms => JsValue.lookup_member k ms
  | ArrayBody _ => None
  end.

Definition MAX_IMAGE_SIZE_BYTES : Z := 10 * 1024 * 1024.

Fixpoint skip_word (s : string) : string :=
  match s with
  | String c r => if JsString.is_word c then skip_word r else s
  | EmptyString => EmptyString
  end.

(** [image.replace(/^data:image\/\w+;base64,/, '')]: the greedy [\w+] takes
    the whole run of word characters, and no shorter run can be followed by
    the semicolon. *)
Definition strip_data_uri (image : string) : string :=
  match JsString.strip_prefix "data:image/" image with
  | Some (String c r) =>
      if JsString.is_word c then
        match JsString.strip_prefix ";base64," (skip_word r) with
        | Some rest => rest
        | None => image
        end
      else image
  | _ => image
  end.

(** [(cleanBase64.length * 3) / 4]: the division of doubles is exact on
    quarters of integers of this size, so the estimate is this rational. *)
Definition estimatedSize (cleanBase64 : string) : Q :=
  (Z.of_nat (String.length cleanBase64) * 3) # 4.

(** [x > y] on numbers *)
Definition exceeds (x : Q) (limit : Z) : bool := negb (Qle_bool x (inject_Z limit)).

(** [x.toFixed(1)] for [x >= 0]: the nearest tenth, the larger one on a tie. *)
Definition toFixed1 (x : Q) : string :=
  let tenths := ((20 * Qnum x + Zpos (Qden x)) / (2 * Zpos (Qden x)))%Z in
  JsString.decimal (Z.to_N (tenths / 10)) ++ "." ++ JsString.decimal (Z.to_N (tenths mod 10)).

Definition error_message (e : jserror) : M string :=
  fun w tr => (Ok (message_of (engine w) e), tr).

(** [a || b] on strings *)
Definition or_default (a b : string) : string :=
  if String.eqb a EmptyString then b else a.

(** The handler of [POST /solve]. *)
Definition solve_route (cfg : config) (req_body : parsed_body) : M response :=
  try_catch
    (if negb (credential_configured cfg) then
       ret {| status := 503;
              body := ErrorBody "Server is not configured. The HuggingFace API key is missing."
                                "MISSING_API_KEY" |}
     else
       let image := field "image" req_body in
       if negb (JsValue.truthy image) then
         ret {| status := 400;
                body := ErrorBody ("No image provided. Please send a base64-encoded image in the "
                                   ++ dq "'image'" ++ " field.")
                                  "NO_IMAGE" |}
       else
         match image with
         | Some (JString image) =>
             let cleanBase64 := strip_data_uri image in
             let size := estimatedSize cleanBase64 in
             if exceeds size MAX_IMAGE_SIZE_BYTES then
               ret {| status := 413;
                      body := ErrorBody ("Image too large ("
                                         ++ toFixed1 (size / inject_Z 1024 / inject_Z 1024)
                                         ++ "MB). Maximum is 10MB.")
                                        "IMAGE_TOO_LARGE" |}
             else
               solution <- solveFromImage image;;
               ret {| status := 200; body := SolutionBody (Some solution) |}
         | _ =>
             ret {| status := 400;
                    body := ErrorBody "Invalid image format. Expected a base64 string."
                                      "INVALID_FORMAT" |}
         end)
    (fun error =>
       m <- error_message error;;
       ret {| status := 500;
              body := ErrorBody
                        (or_default m "An unexpected error occurred while processing the image.")
                        "PROCESSING_ERROR" |}).

(** The handler of [POST /solve-text]. *)
Definition solve_text_route (cfg : config) (req_body : parsed_body) : M response :=
  try_catch
    (if negb (credential_configured cfg) then
       ret {| status := 503; body := ErrorBody "API key not configured" "MISSING_API_KEY" |}
     else
       match field "text" req_body with
       | Some (JString text) =>
           if String.eqb text EmptyString
              || (String.length (JsString.trim text) =? 0)%nat
           then ret {| status := 400; body := ErrorBody "No problem text provided." "NO_TEXT" |}
           else
             solution <- solveFromText (JsString.trim text);;
             ret {| status := 200; body := SolutionBody solution |}
       | _ => ret {| status := 400; body := ErrorBody "No problem text provided." "NO_TEXT" |}
       end)
    (fun error =>
       m <- error_message error;;
       ret {| status := 500; body := ErrorBody m "PROCESSING_ERROR" |}).

(** ** The history of the browser *)

Module History.

Section WithSolution.

(** The object [showResult] displays, whatever its fields. *)
Variable Sol : Type.

(** [{ ...solution, date, timestamp }] *)
Record HistoryItem := {
  solution : Sol;
  date : string;
  timestamp : Z
}.

(** [new Date().toLocaleDateString()] and [Date.now()] at the time of a save. *)
Record clock := { localeDate : string; now : Z }.

Definition KEY : string := "logicLensHistory".

(** Each key of [localStorage] holds the text [JSON.stringify] made of an
    array of items, and [JSON.parse] reads it back: the store is modelled by
    the arrays those texts denote. *)
Definition readHistory (localStorage : gmap string (list HistoryItem)) : list HistoryItem :=
  default [] (localStorage !! KEY).

(** [saveToHistory(solution)] *)
Definition saveToHistory (c : clock) (s : Sol)
    (localStorage : gmap string (list HistoryItem)) : gmap string (list HistoryItem) :=
  let historyItem := {| solution := s; date := localeDate c; timestamp := now c |} in
  let history := readHistory localStorage in
  let history := historyItem :: history in
  let history := if (50 <? List.length history)%nat then removelast history else history in
  <[KEY := history]> localStorage.

(** The item a save builds. *)
Definition item (cs : clock * Sol) : HistoryItem :=
  {| solution := cs.2; date := localeDate cs.1; timestamp := now cs.1 |}.

(** [unshift], then the [pop] when the list is over 50. *)
Definition pushed (x : HistoryItem) (h : list HistoryItem) : list HistoryItem :=
  if (50 <? List.length (x :: h))%nat then removelast (x :: h) else x :: h.

(** The saves of a sequence of displayed solutions, in order. *)
Definition saveAll (saves : list (clock * Sol))
    (localStorage : gmap string (list HistoryItem)) : gmap string (list HistoryItem) :=
  foldl (fun ls cs => saveToHistory cs.1 cs.2 ls) localStorage saves.

End WithSolution.

Arguments solution {Sol} _.
Arguments date {Sol} _.
Arguments timestamp {Sol} _.
Arguments readHistory {Sol} _.
Arguments saveToHistory {Sol} _ _ _.
Arguments saveAll {Sol} _ _.
Arguments item {Sol} _.
Arguments pushed {Sol} _ _.


End History.

(** ** Notions the properties are stated with *)

(** A text has a [{...}] substring when a closing brace follows an opening
    one. *)
Definition has_brace_block (text : string) : Prop :=
  exists a b c, text = a ++ "{" ++ b ++ "}" ++ c.

(** A field of a solution is populated when it holds a truthy value; the
    steps are a list by their type. *)
Definition populated (s : Solution) : Prop :=
  JsValue.truthy (Some (previewText s)) = true
  /\ JsValue.truthy (Some (answer s)) = true
  /\ JsValue.truthy (Some (explanation s)) = true.

(** The provider answers the [n]-th outbound call, when it is [req], with a
    success status and a body whose first choice has the content [c]. *)
Definition answers (w : world) (n : nat) (req : request) (c : string) : Prop :=
  exists status responseText data,
    fetch w n req = Response status responseText
    /\ status_ok status = true
    /\ Json.parse responseText = Some data
    /\ first_choice_content data = JString c.

(** The one call of the vision stage and the call of the text stage. *)
Definition vision_request (base64Image : string) : request :=
  {| model := "Qwen/Qwen2.5-VL-7B-Instruct";
     messages := vision_messages base64Image;
     max_tokens := 1200;
     timeoutMs := VISION_TIMEOUT_MS |}.

Definition text_request (problemText : string) : request :=
  {| model := TEXT_LLM;
     messages := text_messages problemText;
     max_tokens := 1200;
     timeoutMs := TEXT_TIMEOUT_MS |}.

Definition line_feed : string := String JsString.newline EmptyString.

(** ** Sample worlds and requests *)

Definition sample_engine : platform :=
  {| abort_message := "This operation was aborted";
     syntax_error_message := fun _ => "Unexpected token in JSON";
     type_error_message := fun what => what |}.

(** No call is answered in time. *)
Definition offline : world :=
  {| fetch := fun _ _ => Aborted; engine := sample_engine |}.

(** A chat-completion body whose first choice carries [content], which must
    need no escaping. *)
Definition completion_body (content : string) : string :=
  dq "{'choices':[{'message':{'role':'assistant','content':'" ++ content ++ dq "'}}]}".

(** Every call is answered with the same body. *)
Definition always (responseText : string) : world :=
  {| fetch := fun _ _ => Response 200 responseText; engine := sample_engine |}.

(** The first call times out, every later one is answered with the body. *)
Definition vision_down (responseText : string) : world :=
  {| fetch := fun n _ => match n with O => Aborted | S _ => Response 200 responseText end;
     engine := sample_engine |}.

Definition sample_config : config := {| hfApiKey := Some "hf_live_key" |}.


(** Fifty-one displayed solutions, saved one after the other. *)
Definition sample_saves : list (History.clock * string) :=
  map (fun n => ({| History.localeDate := "11/2/2026";
                    History.now := 1793664000000 + Z.of_nat n |},
                 "solution " ++ JsString.decimal (N.of_nat n)))
      (seq 1 51).

(** A stored list that is already over the bound. *)
Definition over_full : gmap string (list (History.HistoryItem string)) :=
  <[History.KEY := replicate 51 (History.item ({| History.localeDate := "11/1/2026";
                                                  History.now := 1793577600000 |}, "old"))]> ∅.

(** ** Further code: the loop over vision models, one call at a time *)

(** The call [tryVisionSolve] makes for a model. *)
Definition vision_call (model : string) (messages : list chat_message) : request :=
  {| model := model; messages := messages; max_tokens := 1200;
     timeoutMs := VISION_TIMEOUT_MS |}.

(** A world whose [n]-th call is answered by the [n]-th outcome of a script,
    and that lets every later call time out. *)
Definition scripted (outcomes : list fetch_outcome) : world :=
  {| fetch := fun n _ => nth n outcomes Aborted; engine := sample_engine |}.

(** ** The environment and the health route *)

Module Env.

(** [!process.env[key]]: a variable is there when it is set and not empty. *)
Definition present (process_env : gmap string string) (key : string) : bool :=
  match process_env !! key with
  | Some v => negb (String.eqb v EmptyString)
  | None => false
  end.

(** [validateEnv()] *)
Definition validateEnv (process_env : gmap string string) : bool :=
  let required := ["HUGGINGFACE_API_KEY"] in
  let missing := List.filter (fun key => negb (present process_env key)) required in
  if (0 <? List.length missing)%nat then false
  else
    match process_env !! "HUGGINGFACE_API_KEY" with
    | Some k => if String.eqb k "hf_your_key_here" then false else true
    | None => true
    end.

(** The [hfApiKey] and [nodeEnv] of the exported [config]. *)
Definition config_of (process_env : gmap string string) : config :=
  {| hfApiKey := process_env !! "HUGGINGFACE_API_KEY" |}.

Definition nodeEnv_of (process_env : gmap string string) : string :=
  or_default (default EmptyString (process_env !! "NODE_ENV")) "development".

End Env.

Module Health.

(** The body of [GET /health]. *)
Record health_body := {
  health_status : string;
  timestamp : string;
  uptime : Z;
  env : string;
  apiKeyConfigured : bool
}.

(** The handler of [GET /health]: [isoNow] is [new Date().toISOString()] and
    [processUptime] is [process.uptime()], in seconds; [Math.floor] of a
    fraction is the quotient of its numerator by its denominator, rounded
    down. *)
Definition health_route (cfg : config) (nodeEnv : string) (isoNow : string) (processUptime : Q)
    : N * health_body :=
  (200%N,
   {| health_status := "ok";
      timestamp := isoNow;
      uptime := (Qnum processUptime / Zpos (Qden processUptime))%Z;
      env := nodeEnv;
      apiKeyConfigured :=
        match hfApiKey cfg with
        | Some k =>
            if String.eqb k EmptyString then false
            else negb (String.eqb k "hf_your_key_here")
        | None => false
        end |}).

End Health.

(** ** The browser: what [startAnalysis] makes of a response *)

Module Client.





(** The marks of [getStepEmoji], named for what they show. *)
Inductive emoji :=
| Magnifier | CheckMark
| Puzzle | Bulb | Memo | Bolt | Target | Wrench | Ruler | Abacus.

Definition midEmojis : list emoji :=
  [Puzzle; Bulb; Memo; Bolt; Target; Wrench; Ruler; Abacus].

(** [getStepEmoji(index, total)]; [None] is [undefined].  The remainder is
    that of JavaScript, which has the sign of the dividend. *)
Definition getStepEmoji (index total : Z) : option emoji :=
  if (index =? 0)%Z then Some Magnifier
  else if (index =? total - 1)%Z then Some CheckMark
  else
    let i := Z.rem (index - 1) (Z.of_nat (List.length midEmojis)) in
    if (i <? 0)%Z then None else nth_error midEmojis (Z.to_nat i).

(** The emoji [renderSteps] gives to each of [n] steps. *)
Definition step_emojis (n : nat) : list (option emoji) :=
  map (fun index => getStepEmoji (Z.of_nat index) (Z.of_nat n)) (seq 0 n).

(** What the user does to the history: a result is shown and saved, or the
    clear button is pressed and the question confirmed or not. *)
Inductive action (Sol : Type) :=
| Shown (c : History.clock) (s : Sol)
| ClearPressed (confirmed : bool).

Arguments Shown {Sol} c s.
Arguments ClearPressed {Sol} confirmed.

(** The handler of the clear button. *)
Definition clearHistory {Sol} (confirmed : bool)
    (localStorage : gmap string (list (History.HistoryItem Sol)))
    : gmap string (list (History.HistoryItem Sol)) :=
  if confirmed then delete History.KEY localStorage else localStorage.

Definition act {Sol} (localStorage : gmap string (list (History.HistoryItem Sol)))
    (a : action Sol) : gmap string (list (History.HistoryItem Sol)) :=
  match a with
  | Shown c s => History.saveToHistory c s localStorage
  | ClearPressed confirmed => clearHistory confirmed localStorage
  end.

End Client.

(** ** The step simplifier of the browser *)

Module Simplify.

(** One entry of [simplifications]: the regex [/\b<stem>(?:<e1>|<e2>|...)\b/gi]
    and the text put in place of its matches.  The endings are in the order
    in which the regex tries them; an optional group tries its alternatives
    and then nothing; a regex with no group has the one empty ending. *)
Record rule := { stem : string; endings : list string; replacement : string }.

Definition lower (c : ascii) : ascii :=
  let n := nat_of_ascii c in
  if ((65 <=? n) && (n <=? 90))%nat then ascii_of_nat (n + 32) else c.

(** A character of a stem, a letter of [a-z] or a space, matches under the
    flag [i] the code unit that is the same letter in either case, or is
    equal to it. *)
Definition same_letter (a b : ascii) : bool := Ascii.eqb (lower a) (lower b).

(** The literal [p] at the start of [s]: the last character it matched, or
    [prev] when [p] is empty, and the text after it. *)
Fixpoint literal (p s : string) (prev : option ascii) : option (option ascii * string) :=
  match p with
  | EmptyString => Some (prev, s)
  | String a p' =>
      match s with
      | String b s' => if same_letter a b then literal p' s' (Some b) else None
      | EmptyString => None
      end
  end.

Definition is_word_at (c : option ascii) : bool :=
  match c with
  | Some x => JsString.is_word x
  | None => false
  end.

Definition first_char (s : string) : option ascii :=
  match s with
  | String c _ => Some c
  | EmptyString => None
  end.

(** [\b] between the character [prev] and the text [s]: exactly one side is
    a word character. *)
Definition boundary (prev : option ascii) (s : string) : bool :=
  xorb (is_word_at prev) (is_word_at (first_char s)).

(** The first ending, in order, that matches and is followed by [\b]; the
    result is its length. *)
Fixpoint first_ending (es : list string) (last : option ascii) (s : string) : option nat :=
  match es with
  | [] => None
  | e :: es' =>
      match literal e s last with
      | Some (last', rest) =>
          if boundary last' rest then Some (String.length e) else first_ending es' last s
      | None => first_ending es' last s
      end
  end.

(** The length of the match of the rule at the start of [s], after [prev]. *)
Definition match_at (r : rule) (prev : option ascii) (s : string) : option nat :=
  if boundary prev s then
    match literal (stem r) s prev with
    | Some (last, rest) =>
        match first_ending (endings r) last rest with
        | Some n => Some (String.length (stem r) + n)%nat
        | None => None
        end
    | None => None
    end
  else None.

(** [s.replace(regex, replacement)] for a global regex, from left to right:
    [skip] characters of the current match are still to be passed over. *)
Fixpoint replace_from (r : rule) (prev : option ascii) (skip : nat) (s : string) : string :=
  match s with
  | EmptyString => EmptyString
  | String c rest =>
      match skip with
      | S k => replace_from r (Some c) k rest
      | O =>
          match match_at r prev s with
          | Some n => replacement r ++ replace_from r (Some c) (n - 1) rest
          | None => String c (replace_from r (Some c) 0 rest)
          end
      end
  end.

Definition plain (s t : string) : rule := {| stem := s; endings := [EmptyString]; replacement := t |}.

Definition A_circumflex : string := String "194" EmptyString.
Definition superscript_two : string := String "178" EmptyString.
Definition degree : string := String "176" EmptyString.

Definition simplifications : list rule :=
  [ plain "integral" "the area under the curve";
    plain "differentiate" "find how fast it changes";
    plain "derivative" "rate of change";
    plain "substitution" "replacing one part with something simpler";
    plain "symmetry property" "a shortcut because both sides are mirror images";
    plain "trigonometric functions" "sin, cos, tan (angle-based math)";
    plain "trigonometric" "angle-based";
    plain "integrand" "the expression inside the integral";
    plain "evaluates to" "gives us the answer of";
    {| stem := "simplif"; endings := ["y"; "ied"; "ies"; "ying"];
       replacement := "make it easier" |};
    plain "coefficient" "the number in front";
    plain "variable" "the unknown letter (like x)";
    plain "constant" "a fixed number that doesn't change";
    plain "equation" "math sentence with an equals sign";
    plain "expression" "math phrase";
    plain "denominator" "bottom number of a fraction";
    plain "numerator" "top number of a fraction";
    {| stem := "factor"; endings := ["ize"; "s"; EmptyString];
       replacement := "break it into smaller parts that multiply together" |};
    plain "hypothesis" "an educated guess";
    plain "velocity" "speed with direction";
    plain "acceleration" "how quickly speed changes";
    plain "equilibrium" "a balanced state";
    {| stem := "exponent"; endings := ["ial"; EmptyString];
       replacement := "power (how many times to multiply)" |};
    plain "logarithm" "the reverse of raising to a power";
    plain "polynomial"
          ("an expression with multiple terms like x" ++ A_circumflex ++ superscript_two
           ++ " + 3x + 2");
    plain "quadratic"
          ("an equation where the highest power is 2 (like x" ++ A_circumflex
           ++ superscript_two ++ ")");
    {| stem := "proportion"; endings := ["al"; EmptyString];
       replacement := "when two things grow or shrink together" |};
    plain "reciprocal" "flip the fraction (1 divided by the number)";
    plain "perpendicular" ("at a 90" ++ A_circumflex ++ degree ++ " right angle");
    plain "parallel" "lines that never cross";
    plain "congruent" "same shape and size";
    plain "theorem" "a proven math rule";
    plain "molecule" "tiny particle made of atoms joined together";
    plain "photosynthesis" "how plants make food using sunlight";
    plain "oxidation" "a chemical reaction with oxygen";
    plain "catalyst" "something that speeds up a reaction without being used up" ].

(** [simplifyStep(rawStep)]: the rules one after the other, each on the
    result of the one before. *)
Definition simplifyStep (rawStep : string) : string :=
  fold_left (fun simple r => replace_from r None 0 simple) simplifications rawStep.

(** The literal [p] stands somewhere in [s], in any case of its letters. *)
Fixpoint occurs_ci (p s : string) : bool :=
  match literal p s None with
  | Some _ => true
  | None =>
      match s with
      | String _ rest => occurs_ci p rest
      | EmptyString => false
      end
  end.

End Simplify.

(** ** The first server: its handling of the generated text *)

Module Legacy.





End Legacy.

(** * Properties *)

(** ** Strings and the brace match *)

#[local] Arguments String.append : simpl nomatch.

Module StringFacts.

Import JsString.

Lemma from_first_Some c s r :
  from_first c s = Some r -> exists a r', s = a ++ String c r' /\ r = String c r'.
Proof.
  induction s as [|x s IH]; simpl; [discriminate|].
  destruct (Ascii.eqb_spec x c) as [->|Hne].
  - intros [= <-]. by exists EmptyString, s.
  - intros H. destruct (IH H) as (a & r' & -> & ->).
    by exists (String x a), r'.
Qed.

Lemma upto_last_Some c s p :
  upto_last c s = Some p -> exists q rest, p = q ++ String c EmptyString /\ s = p ++ rest.
Proof.
  revert p. induction s as [|x s IH]; simpl; intros p; [discriminate|].
  destruct (upto_last c s) as [p'|] eqn:E.
  - intros [= <-]. destruct (IH p' eq_refl) as (q & rest & -> & ->).
    by exists (String x q), rest.
  - destruct (Ascii.eqb_spec x c) as [->|Hne]; [|discriminate].
    intros [= <-]. by exists EmptyString, s.
Qed.




Lemma append_assoc (a b c : string) : (a ++ b) ++ c = a ++ (b ++ c).
Proof. induction a as [|x a IH]; simpl; [done|]. by f_equal. Qed.

Lemma append_nil_r (a : string) : a ++ EmptyString = a.
Proof. induction a as [|x a IH]; simpl; [done|]. by f_equal. Qed.


Lemma eqb_empty_false c s : String.eqb (String c s) EmptyString = false.
Proof. done. Qed.

End StringFacts.

Lemma jsonMatch_Some_block text m : jsonMatch text = Some m -> has_brace_block text.
Proof.
  unfold jsonMatch. destruct (JsString.from_first "{" text) as [[|b r]|] eqn:E; try discriminate.
  destruct (JsString.upto_last "}" r) as [p|] eqn:E'; [|discriminate].
  intros _.
  apply StringFacts.from_first_Some in E as (a & r' & -> & [= -> ->]).
  apply StringFacts.upto_last_Some in E' as (q & rest & -> & ->).
  exists a, q, rest. simpl. by rewrite StringFacts.append_assoc.
Qed.

Lemma jsonMatch_no_block text : ~ has_brace_block text -> jsonMatch text = None.
Proof.
  intros H. destruct (jsonMatch text) eqn:E; [|done].
  destruct H. eauto using jsonMatch_Some_block.
Qed.

Lemma upto_last_occurs c s :
  JsString.occurs c s = true -> exists p, JsString.upto_last c s = Some p.
Proof.
  induction s as [|x s IH]; simpl; [discriminate|].
  destruct (JsString.upto_last c s) as [p|]; [by eexists|].
  destruct (Ascii.eqb x c); [by eexists|]. simpl. intros H. by destruct (IH H).
Qed.

Lemma occurs_app c a b :
  JsString.occurs c (a ++ b) = JsString.occurs c a || JsString.occurs c b.
Proof.
  induction a as [|x a IH]; simpl; [done|]. by rewrite IH, orb_assoc.
Qed.

Lemma from_first_app c a rest :
  exists m, JsString.from_first c (a ++ String c rest) = Some (String c (m ++ rest)).
Proof.
  induction a as [|x a IH]; simpl.
  - rewrite Ascii.eqb_refl. by exists EmptyString.
  - destruct (Ascii.eqb_spec x c) as [->|_].
    + by exists (a ++ String c EmptyString); rewrite StringFacts.append_assoc.
    + apply IH.
Qed.

(** The regex matches exactly the texts that have a brace block. *)
Lemma jsonMatch_block text : has_brace_block text <-> exists m, jsonMatch text = Some m.
Proof.
  split; [|intros [m H]; by eapply jsonMatch_Some_block].
  intros (a & b & c & ->). unfold jsonMatch.
  destruct (from_first_app "{" a (b ++ "}" ++ c)) as [m Hm].
  change (a ++ "{" ++ b ++ "}" ++ c) with (a ++ String "{" (b ++ "}" ++ c)).
  rewrite Hm.
  destruct (upto_last_occurs "}" (m ++ b ++ "}" ++ c)) as [p ->]; [|by eexists].
  rewrite !occurs_app. simpl. by rewrite !orb_true_r.
Qed.


(** ** The parser: totality, the fallback, populated fields *)

Lemma parseResponse_empty fallbackPreview :
  parseResponse EmptyString fallbackPreview = Ok None.
Proof. reflexivity. Qed.

Lemma parseResponse_cases text fallbackPreview :
  text <> EmptyString ->
  exists s, parseResponse text fallbackPreview = Ok (Some s)
            /\ (parse_block text fallbackPreview = Ok (Some s)
                \/ s = fallback text fallbackPreview).
Proof.
  intros Hne. unfold parseResponse.
  destruct text as [|c text]; [done|]. rewrite StringFacts.eqb_empty_false.
  destruct (parse_block _ _) as [[s|]|e]; eauto.
Qed.

(** A text without a brace block gets the fallback object. *)
Lemma parseResponse_no_block text fallbackPreview :
  text <> EmptyString -> ~ has_brace_block text ->
  parseResponse text fallbackPreview = Ok (Some (fallback text fallbackPreview)).
Proof.
  intros Hne Hnb. unfold parseResponse, parse_block.
  destruct text as [|c text]; [done|]. rewrite StringFacts.eqb_empty_false.
  by rewrite (jsonMatch_no_block _ Hnb).
Qed.

Lemma or_else_truthy a b :
  JsValue.truthy (Some b) = true -> JsValue.truthy (Some (JsValue.or_else a b)) = true.
Proof.
  intros Hb. unfold JsValue.or_else. destruct a as [v|]; [|done].
  by destruct (JsValue.truthy (Some v)) eqn:E.
Qed.


Lemma truthy_string c s : JsValue.truthy (Some (JString (String c s))) = true.
Proof. done. Qed.

Lemma fallback_populated text fallbackPreview :
  text <> EmptyString -> populated (fallback text fallbackPreview).
Proof.
  intros Hne. destruct text as [|c text]; [done|].
  unfold populated, fallback. cbn [previewText answer explanation].
  split; [by apply or_else_truthy|done].
Qed.

Lemma parse_block_populated text fallbackPreview s :
  text <> EmptyString ->
  parse_block text fallbackPreview = Ok (Some s) -> populated s.
Proof.
  intros Hne. destruct (fallback_populated text fallbackPreview Hne) as (Hp & Ha & He).
  unfold parse_block.
  destruct (jsonMatch text) as [m|]; [|discriminate].
  destruct (Json.parse m) as [parsed|]; [|discriminate].
  destruct (get_prop "previewText" parsed) as [p|e1], (get_prop "answer" parsed) as [a|e2],
    (get_prop "steps" parsed) as [st|e3], (get_prop "explanation" parsed) as [ex|e4];
    try discriminate.
  intros [= <-]. unfold populated. cbn [previewText answer explanation].
  repeat split; by repeat apply or_else_truthy.
Qed.

(** Whatever [parseResponse] returns as a solution has its fields populated. *)
Lemma parseResponse_populated text fallbackPreview s :
  parseResponse text fallbackPreview = Ok (Some s) -> populated s.
Proof.
  intros H. destruct text as [|c text]; [discriminate|].
  destruct (parseResponse_cases (String c text) fallbackPreview) as (s' & Hs' & Hor); [done|].
  rewrite H in Hs'. injection Hs' as <-.
  destruct Hor as [Hb| ->].
  - by apply (parse_block_populated (String c text) fallbackPreview).
  - by apply fallback_populated.
Qed.

(** C7. The normalizer never throws: for every text and every fallback
    preview it returns; what it returns is nothing exactly when the text is
    empty, and otherwise the object of the [try] block or, at worst, the
    all-fallback object. *)
Theorem parseResponse_never_throws (text fallbackPreview : string) :
  exists r, parseResponse text fallbackPreview = Ok r
            /\ (r = None <-> text = EmptyString)
            /\ match r with
               | Some s => parse_block text fallbackPreview = Ok (Some s)
                           \/ s = fallback text fallbackPreview
               | None => True
               end.
Proof.
  destruct text as [|c text].
  - exists None. by rewrite parseResponse_empty.
  - destruct (parseResponse_cases (String c text) fallbackPreview) as (s & Hs & Hor); [done|].
    exists (Some s). split; [done|]. split; [|done]. split; discriminate.
Qed.

(** ** Lines *)

Module Lines.

Import JsString.

Lemma split_nonempty sep s : split sep s <> [].
Proof.
  destruct s as [|c s]; simpl; [done|].
  destruct (Ascii.eqb c sep); [done|]. by destruct (split sep s).
Qed.

(** Splitting cuts the text at its line feeds and nowhere else. *)
Lemma join_split s : join (split newline s) = s.
Proof.
  induction s as [|c s IH]; [done|]. simpl.
  destruct (Ascii.eqb_spec c newline) as [->|Hne].
  - pose proof (split_nonempty newline s).
    destruct (split newline s) as [|h t] eqn:E; [done|].
    change (join (EmptyString :: h :: t)) with (String newline (join (h :: t))).
    by rewrite IH.
  - destruct (split newline s) as [|h t] eqn:E; [by destruct (split_nonempty newline s)|].
    rewrite <- IH. by destruct t.
Qed.

Lemma split_no_newline s :
  Forall (fun l => JsString.occurs newline l = false) (split newline s).
Proof.
  induction s as [|c s IH]; simpl; [by repeat constructor|].
  destruct (Ascii.eqb_spec c newline) as [->|Hne].
  - by constructor.
  - destruct (split newline s) as [|h t]; [repeat constructor; simpl|].
    + by rewrite (proj2 (Ascii.eqb_neq _ _) Hne).
    + inversion IH; subst. constructor; [|done]. simpl.
      by rewrite (proj2 (Ascii.eqb_neq _ _) Hne).
Qed.

Lemma trimStart_all_space l : all_space l = true -> trimStart l = EmptyString.
Proof.
  induction l as [|c l IH]; simpl; [done|].
  intros [Hc Hl]%andb_true_iff. rewrite Hc. auto.
Qed.

Lemma trimStart_visible l :
  all_space l = false ->
  exists c r, trimStart l = String c r /\ is_space c = false.
Proof.
  induction l as [|c l IH]; simpl; [done|].
  destruct (is_space c) eqn:Hc; simpl; eauto.
Qed.

Lemma trimEnd_visible c r : is_space c = false -> trimEnd (String c r) <> EmptyString.
Proof. intros Hc. simpl. rewrite Hc. by destruct (trimEnd r). Qed.

(** [l.trim().length > 0] holds when [l] has a character that is not white
    space. *)
Lemma trim_visible l :
  (0 <? String.length (trim l))%nat = negb (all_space l).
Proof.
  unfold trim. destruct (all_space l) eqn:E.
  - by rewrite trimStart_all_space.
  - destruct (trimStart_visible l E) as (c & r & -> & Hc).
    pose proof (trimEnd_visible c r Hc).
    by destruct (trimEnd (String c r)).
Qed.

End Lines.

Lemma fallback_steps_visible text :
  fallback_steps text
  = List.filter (fun l => negb (JsString.all_space l)) (JsString.split JsString.newline text).
Proof.
  unfold fallback_steps.
  induction (JsString.split JsString.newline text) as [|l ls IH]; [done|].
  simpl. by rewrite Lines.trim_visible, IH.
Qed.

(** C8, as the code has it.  For every text that is not empty and has no
    brace block, the normalizer returns a solution whose steps are the lines
    of the text (cut at line feeds) that have a character other than white
    space, in their order and untrimmed, and whose explanation is the whole
    text. *)
Theorem parseResponse_plain_text (text fallbackPreview : string) :
  text <> EmptyString ->
  ~ has_brace_block text ->
  exists s, parseResponse text fallbackPreview = Ok (Some s)
            /\ steps s = map JString
                           (List.filter (fun l => negb (JsString.all_space l))
                                        (JsString.split JsString.newline text))
            /\ explanation s = JString text.
Proof.
  intros Hne Hnb. exists (fallback text fallbackPreview).
  split; [by apply parseResponse_no_block|].
  split; [|done]. simpl. by rewrite fallback_steps_visible.
Qed.

Lemma no_block_without_open text :
  JsString.occurs "{" text = false -> ~ has_brace_block text.
Proof.
  intros H (a & b & c & ->).
  induction a as [|x a IH]; simpl in H; [done|].
  apply orb_false_iff in H as [_ H]. auto.
Qed.

Lemma parseResponse_plain_text_witness :
  exists s, parseResponse ("First line" ++ line_feed ++ "   " ++ line_feed ++ " second") "" = Ok (Some s)
            /\ steps s = [JString "First line"; JString " second"]
            /\ explanation s = JString ("First line" ++ line_feed ++ "   " ++ line_feed ++ " second").
Proof.
  apply (parseResponse_plain_text
           ("First line" ++ line_feed ++ "   " ++ line_feed ++ " second") "").
  - discriminate.
  - apply no_block_without_open. reflexivity.
Defined.

(** C8, as the specification words it, fails twice.  A line of white space
    only is a non-empty line that the steps leave out; and the empty text,
    which has no brace block either, gets no solution at all. *)
Lemma parseResponse_plain_text_counterexample :
  (let text := " " ++ line_feed ++ "x" in
   ~ has_brace_block text
   /\ List.filter (fun l => negb (String.eqb l EmptyString))
                  (JsString.split JsString.newline text) = [" "; "x"]
   /\ exists s, parseResponse text "" = Ok (Some s) /\ steps s = [JString "x"])
  /\ (~ has_brace_block EmptyString /\ parseResponse EmptyString "" = Ok None).
Proof.
  split; [|split; [by apply no_block_without_open | reflexivity]].
  split; [by apply no_block_without_open|].
  split; [reflexivity|]. eexists. split; reflexivity.
Qed.

(** ** The service: calls, stages, what the orchestrator can return *)

Lemma chatCompletion_answers model msgs maxTokens timeout w tr c :
  answers w (List.length tr)
    {| model := model; messages := msgs; max_tokens := maxTokens; timeoutMs := timeout |} c ->
  chatCompletion model msgs maxTokens timeout w tr
  = (Ok c, (tr ++ [ {| model := model; messages := msgs;
                       max_tokens := maxTokens; timeoutMs := timeout |} ])%list).
Proof.
  intros (status & body & data & Hf & Hok & Hp & Hc).
  unfold chatCompletion, try_catch, bind, call. rewrite Hf, Hok. simpl.
  rewrite Hp, Hc. reflexivity.
Qed.

(** A call appends exactly its request to the trace, however it ends. *)
Lemma chatCompletion_trace model msgs maxTokens timeout w tr :
  (chatCompletion model msgs maxTokens timeout w tr).2
  = (tr ++ [ {| model := model; messages := msgs;
                max_tokens := maxTokens; timeoutMs := timeout |} ])%list.
Proof.
  unfold chatCompletion, try_catch, bind, call.
  destruct (fetch w _ _) as [|what|status body]; simpl; try done.
  destruct (status_ok status); simpl; [|done].
  destruct (Json.parse body) as [data|]; simpl; [|done].
  by destruct (first_choice_content data).
Qed.

(** The vision loop catches everything: it returns a solution or nothing. *)
Lemma tryVisionModels_returns models msgs w tr :
  exists r tr', tryVisionModels models msgs w tr = (Ok r, tr').
Proof.
  revert tr. induction models as [|m rest IH]; intros tr; simpl.
  - by eexists _, _.
  - unfold bind at 1. unfold try_catch at 1. unfold bind at 1.
    destruct (chatCompletion m msgs 1200 VISION_TIMEOUT_MS w tr) as [[c|e] tr1].
    + destruct (negb (c =? "") && (10 <? String.length c)%nat).
      * unfold bind, lift, ret.
        destruct (parseResponse_never_throws c "") as (r & -> & _).
        by eexists _, _.
      * unfold ret at 1. apply IH.
    + unfold ret at 1. apply IH.
Qed.

Lemma tryVisionModels_populated models msgs w tr s tr' :
  tryVisionModels models msgs w tr = (Ok (Some s), tr') -> populated s.
Proof.
  revert tr. induction models as [|m rest IH]; intros tr; simpl.
  - discriminate.
  - unfold bind at 1. unfold try_catch at 1. unfold bind at 1.
    destruct (chatCompletion m msgs 1200 VISION_TIMEOUT_MS w tr) as [[c|e] tr1].
    + destruct (negb (c =? "") && (10 <? String.length c)%nat).
      * unfold bind, lift, ret.
        destruct (parseResponse c "") as [r|e] eqn:E.
        -- intros [= -> ->]. by apply parseResponse_populated in E.
        -- apply IH.
      * unfold ret at 1. apply IH.
    + unfold ret at 1. apply IH.
Qed.

Lemma mark_unreadable_populated r : populated (mark_unreadable r).
Proof. by repeat split. Qed.

(** The result of [solveFromImage], by the stage that decides it. *)
Lemma solveFromImage_vision image w tr s tr1 :
  tryVisionSolve image w tr = (Ok (Some s), tr1) ->
  solveFromImage image w tr = (Ok s, tr1).
Proof. intros H. unfold solveFromImage, bind. by rewrite H. Qed.

Lemma textOnlySolve_content problemText w tr c tr' :
  chatCompletion TEXT_LLM (text_messages problemText) 1200 TEXT_TIMEOUT_MS w tr = (Ok c, tr') ->
  textOnlySolve problemText w tr = (parseResponse c problemText, tr').
Proof. intros H. unfold textOnlySolve, bind, lift. by rewrite H. Qed.

Lemma textOnlySolve_throws problemText w tr e tr' :
  chatCompletion TEXT_LLM (text_messages problemText) 1200 TEXT_TIMEOUT_MS w tr = (Throw e, tr') ->
  textOnlySolve problemText w tr = (Throw e, tr').
Proof. intros H. unfold textOnlySolve, bind, lift. by rewrite H. Qed.

Lemma solveFromImage_fallback image w tr tr1 c tr2 :
  tryVisionSolve image w tr = (Ok None, tr1) ->
  chatCompletion TEXT_LLM (text_messages UNREADABLE_IMAGE_PROBLEM) 1200 TEXT_TIMEOUT_MS w tr1
  = (Ok c, tr2) ->
  solveFromImage image w tr
  = (match parseResponse c UNREADABLE_IMAGE_PROBLEM with
     | Ok (Some r) => Ok (mark_unreadable r)
     | _ => Throw (Error ALL_UNAVAILABLE)
     end, tr2).
Proof.
  intros Hv Ht. unfold solveFromImage. unfold bind at 1. rewrite Hv.
  unfold bind at 1. unfold try_catch. unfold bind at 1.
  rewrite (textOnlySolve_content _ _ _ _ _ Ht).
  by destruct (parseResponse c UNREADABLE_IMAGE_PROBLEM) as [[r|]|e].
Qed.

Lemma solveFromImage_fatal image w tr tr1 e tr2 :
  tryVisionSolve image w tr = (Ok None, tr1) ->
  chatCompletion TEXT_LLM (text_messages UNREADABLE_IMAGE_PROBLEM) 1200 TEXT_TIMEOUT_MS w tr1
  = (Throw e, tr2) ->
  solveFromImage image w tr = (Throw (Error ALL_UNAVAILABLE), tr2).
Proof.
  intros Hv Ht. unfold solveFromImage. unfold bind at 1. rewrite Hv.
  unfold bind at 1. unfold try_catch. unfold bind at 1.
  by rewrite (textOnlySolve_throws _ _ _ _ _ Ht).
Qed.

(** The orchestrator resolves to a populated solution or throws the one
    terminal error. *)
Lemma solveFromImage_outcome image w tr :
  exists tr',
    (exists s, solveFromImage image w tr = (Ok s, tr') /\ populated s)
    \/ solveFromImage image w tr = (Throw (Error ALL_UNAVAILABLE), tr').
Proof.
  destruct (tryVisionModels_returns VISION_MODELS (vision_messages image) w tr)
    as ([s|] & tr1 & Hv).
  - exists tr1. left. exists s. split; [by apply solveFromImage_vision|].
    by eapply tryVisionModels_populated.
  - destruct (chatCompletion TEXT_LLM (text_messages UNREADABLE_IMAGE_PROBLEM)
                1200 TEXT_TIMEOUT_MS w tr1) as [[c|e] tr2] eqn:Ht.
    + exists tr2. rewrite (solveFromImage_fallback _ _ _ _ _ _ Hv Ht).
      destruct (parseResponse c UNREADABLE_IMAGE_PROBLEM) as [[r|]|e]; eauto.
      left. eexists. split; [done|]. apply mark_unreadable_populated.
    + exists tr2. right. by eapply solveFromImage_fatal.
Qed.

(** C3, as the code has it.  Whenever the vision stage yields nothing and
    the call of the text model succeeds with a content that is not empty,
    [solveFromImage] resolves to the scripted guidance: the preview
    "Image could not be read", the fixed answer, the fixed four steps and
    the fixed explanation, whatever the content was. *)
Theorem solveFromImage_scripted_guidance
    (image : string) (w : world) (tr1 tr2 : list request) (content : string) :
  tryVisionSolve image w [] = (Ok None, tr1) ->
  chatCompletion TEXT_LLM (text_messages UNREADABLE_IMAGE_PROBLEM) 1200 TEXT_TIMEOUT_MS w tr1
  = (Ok content, tr2) ->
  content <> EmptyString ->
  exists s,
    solveFromImage image w [] = (Ok s, tr2)
    /\ previewText s = JString "Image could not be read"
    /\ answer s = JString "Could not read image"
    /\ steps s = [ JString "The AI vision models were unable to process this image.";
                   JString "Try taking a clearer, well-lit photo of the problem.";
                   JString "Make sure the text/equations are clearly visible.";
                   JString "Alternatively, you can type the problem directly." ]
    /\ explanation s = JString "The free-tier AI vision models may be temporarily unavailable or the image quality was insufficient. Please try again or use the text input option.".
Proof.
  intros Hv Ht Hne.
  rewrite (solveFromImage_fallback _ _ _ _ _ _ Hv Ht).
  destruct (parseResponse_cases content UNREADABLE_IMAGE_PROBLEM Hne) as (r & -> & _).
  by exists (mark_unreadable r).
Qed.

Lemma solveFromImage_scripted_guidance_witness :
  exists s,
    solveFromImage "iVBORw0KGgo=" (vision_down (completion_body "I cannot see any image.")) []
    = (Ok s, [vision_request "iVBORw0KGgo="; text_request UNREADABLE_IMAGE_PROBLEM])
    /\ previewText s = JString "Image could not be read"
    /\ answer s = JString "Could not read image"
    /\ steps s = [ JString "The AI vision models were unable to process this image.";
                   JString "Try taking a clearer, well-lit photo of the problem.";
                   JString "Make sure the text/equations are clearly visible.";
                   JString "Alternatively, you can type the problem directly." ]
    /\ explanation s = JString "The free-tier AI vision models may be temporarily unavailable or the image quality was insufficient. Please try again or use the text input option.".
Proof.
  apply (solveFromImage_scripted_guidance
           "iVBORw0KGgo=" (vision_down (completion_body "I cannot see any image."))
           [vision_request "iVBORw0KGgo="]
           [vision_request "iVBORw0KGgo="; text_request UNREADABLE_IMAGE_PROBLEM]
           "I cannot see any image.").
  - reflexivity.
  - reflexivity.
  - discriminate.
Defined.

(** C3, as the specification words it, fails when the text model succeeds
    with nothing to say: the vision call times out, the text call is
    answered with status 200 and no choice, so its content is the empty
    string, [parseResponse] gives no object, and the orchestrator throws. *)
Lemma solveFromImage_scripted_guidance_counterexample :
  let w := vision_down (dq "{'choices':[]}") in
  let tr1 := [vision_request "iVBORw0KGgo="] in
  let tr2 := [vision_request "iVBORw0KGgo="; text_request UNREADABLE_IMAGE_PROBLEM] in
  tryVisionSolve "iVBORw0KGgo=" w [] = (Ok None, tr1)
  /\ chatCompletion TEXT_LLM (text_messages UNREADABLE_IMAGE_PROBLEM) 1200 TEXT_TIMEOUT_MS w tr1
     = (Ok EmptyString, tr2)
  /\ solveFromImage "iVBORw0KGgo=" w [] = (Throw (Error ALL_UNAVAILABLE), tr2).
Proof. repeat split; reflexivity. Qed.

(** ** The routes *)

(** A request that passes the validation of [/solve] gets what the
    orchestrator resolves to, or status 500 with the message of what it
    throws. *)
Lemma solve_route_valid cfg req_body image w tr :
  credential_configured cfg = true ->
  field "image" req_body = Some (JString image) ->
  image <> EmptyString ->
  exceeds (estimatedSize (strip_data_uri image)) MAX_IMAGE_SIZE_BYTES = false ->
  solve_route cfg req_body w tr
  = match solveFromImage image w tr with
    | (Ok s, tr') => (Ok {| status := 200; body := SolutionBody (Some s) |}, tr')
    | (Throw e, tr') =>
        (Ok {| status := 500;
               body := ErrorBody
                         (or_default (message_of (engine w) e)
                            "An unexpected error occurred while processing the image.")
                         "PROCESSING_ERROR" |}, tr')
    end.
Proof.
  intros Hcfg Himg Hne Hsize. unfold solve_route, try_catch.
  destruct image as [|c image]; [done|].
  rewrite Hcfg, Himg. cbn [JsValue.truthy String.eqb negb]. rewrite Hsize.
  unfold bind at 1.
  by destruct (solveFromImage (String c image) w tr) as [[s|e] tr'].
Qed.

(** C4. If the vision stage yields nothing and the call of the text model
    fails, [solveFromImage] throws the terminal error, whose message starts
    with "All AI models are currently unavailable."; and for a request that
    reached the orchestrator, [/solve] answers whatever the orchestrator
    throws with status 500, the message of the error and the code
    PROCESSING_ERROR. *)
Theorem solve_fatal_is_500
    (cfg : config) (req_body : parsed_body) (image : string) (w : world) :
  credential_configured cfg = true ->
  field "image" req_body = Some (JString image) ->
  image <> EmptyString ->
  exceeds (estimatedSize (strip_data_uri image)) MAX_IMAGE_SIZE_BYTES = false ->
  (forall tr1 e tr2,
      tryVisionSolve image w [] = (Ok None, tr1) ->
      chatCompletion TEXT_LLM (text_messages UNREADABLE_IMAGE_PROBLEM) 1200 TEXT_TIMEOUT_MS w tr1
      = (Throw e, tr2) ->
      solveFromImage image w [] = (Throw (Error ALL_UNAVAILABLE), tr2)
      /\ JsString.startsWith ALL_UNAVAILABLE "All AI models are currently unavailable." = true)
  /\ (forall e tr',
         solveFromImage image w [] = (Throw e, tr') ->
         message_of (engine w) e <> EmptyString
         /\ solve_route cfg req_body w []
            = (Ok {| status := 500;
                     body := ErrorBody (message_of (engine w) e) "PROCESSING_ERROR" |}, tr')).
Proof.
  intros Hcfg Himg Hne Hsize. split.
  - intros tr1 e tr2 Hv Ht. split; [by eapply solveFromImage_fatal|reflexivity].
  - intros e tr' Hthrow.
    rewrite (solve_route_valid _ _ _ _ _ Hcfg Himg Hne Hsize), Hthrow.
    destruct (solveFromImage_outcome image w []) as (tr'' & [(s & Hs & _)|Hf]);
      [congruence|].
    rewrite Hthrow in Hf. injection Hf as -> ->. by split.
Qed.

Lemma solve_fatal_is_500_witness :
  solveFromImage "iVBORw0KGgo=" offline []
  = (Throw (Error ALL_UNAVAILABLE),
     [vision_request "iVBORw0KGgo="; text_request UNREADABLE_IMAGE_PROBLEM])
  /\ solve_route sample_config (ObjectBody [("image", JString "iVBORw0KGgo=")]) offline []
     = (Ok {| status := 500; body := ErrorBody ALL_UNAVAILABLE "PROCESSING_ERROR" |},
        [vision_request "iVBORw0KGgo="; text_request UNREADABLE_IMAGE_PROBLEM]).
Proof.
  pose proof (solve_fatal_is_500 sample_config
                (ObjectBody [("image", JString "iVBORw0KGgo=")]) "iVBORw0KGgo=" offline
                eq_refl eq_refl ltac:(discriminate) eq_refl) as [Hfatal Hroute].
  split.
  - apply (Hfatal [vision_request "iVBORw0KGgo="]
                  (Error "Request to mistralai/Mistral-7B-Instruct-v0.2 timed out (60s). Try again.")
                  [vision_request "iVBORw0KGgo="; text_request UNREADABLE_IMAGE_PROBLEM]);
      reflexivity.
  - apply (Hroute (Error ALL_UNAVAILABLE)). reflexivity.
Defined.

(** The trace of each stage: the vision stage makes its one call, the text
    stage makes its one call, and the orchestrator makes the first or both. *)
Lemma tryVisionSolve_trace image w tr :
  (tryVisionSolve image w tr).2 = (tr ++ [vision_request image])%list.
Proof.
  unfold tryVisionSolve, VISION_MODELS, tryVisionModels.
  unfold bind at 1. unfold try_catch at 1. unfold bind at 1.
  pose proof (chatCompletion_trace "Qwen/Qwen2.5-VL-7B-Instruct" (vision_messages image)
                1200 VISION_TIMEOUT_MS w tr) as Htr.
  destruct (chatCompletion _ _ _ _ w tr) as [[c|e] tr1]; simpl in Htr; subst tr1; [|done].
  destruct (negb (c =? "") && (10 <? String.length c)%nat); [|done].
  unfold bind, lift, ret.
  by destruct (parseResponse c "") as [[r|]|e].
Qed.

Lemma textOnlySolve_trace problemText w tr :
  (textOnlySolve problemText w tr).2 = (tr ++ [text_request problemText])%list.
Proof.
  unfold textOnlySolve, bind.
  pose proof (chatCompletion_trace TEXT_LLM (text_messages problemText)
                1200 TEXT_TIMEOUT_MS w tr) as Htr.
  by destruct (chatCompletion _ _ _ _ w tr) as [[c|e] tr1]; simpl in Htr; subst tr1.
Qed.

Lemma solveFromImage_trace image w tr :
  (solveFromImage image w tr).2 = (tr ++ [vision_request image])%list
  \/ (solveFromImage image w tr).2
     = (tr ++ [vision_request image; text_request UNREADABLE_IMAGE_PROBLEM])%list.
Proof.
  pose proof (tryVisionSolve_trace image w tr) as Hv.
  destruct (tryVisionModels_returns VISION_MODELS (vision_messages image) w tr)
    as (v & tr1 & Hr).
  change (tryVisionModels VISION_MODELS (vision_messages image))
    with (tryVisionSolve image) in Hr.
  rewrite Hr in Hv. simpl in Hv. subst tr1.
  destruct v as [s|]; [left|right]; unfold solveFromImage; unfold bind at 1; rewrite Hr.
  - done.
  - unfold bind at 1. unfold try_catch. unfold bind at 1.
    pose proof (textOnlySolve_trace UNREADABLE_IMAGE_PROBLEM w
                  (tr ++ [vision_request image])%list) as Ht.
    destruct (textOnlySolve _ w _) as [[[r|]|e] tr2]; simpl in Ht; subst tr2;
      simpl; by rewrite <- (assoc_L (++)).
Qed.



(** C5, as the code has it.  With a configured credential, [/solve] answers
    400 with code NO_IMAGE when the [image] field is absent or holds a falsy
    value ([null], [false], [0], the empty string), and 400 with code
    INVALID_FORMAT when it holds a truthy value that is not a string; in both
    cases no outbound call is made. *)
Theorem solve_route_validates_image
    (cfg : config) (req_body : parsed_body) (w : world) (tr : list request) :
  credential_configured cfg = true ->
  (field "image" req_body = None ->
   exists msg, solve_route cfg req_body w tr
               = (Ok {| status := 400; body := ErrorBody msg "NO_IMAGE" |}, tr))
  /\ (JsValue.truthy (field "image" req_body) = false ->
      exists msg, solve_route cfg req_body w tr
                  = (Ok {| status := 400; body := ErrorBody msg "NO_IMAGE" |}, tr))
  /\ (JsValue.truthy (field "image" req_body) = true ->
      JsValue.is_string (field "image" req_body) = false ->
      exists msg, solve_route cfg req_body w tr
                  = (Ok {| status := 400; body := ErrorBody msg "INVALID_FORMAT" |}, tr)).
Proof.
  intros Hcfg.
  assert (JsValue.truthy (field "image" req_body) = false ->
          exists msg, solve_route cfg req_body w tr
                      = (Ok {| status := 400; body := ErrorBody msg "NO_IMAGE" |}, tr)) as Hfalsy.
  { intros Hf. unfold solve_route, try_catch. rewrite Hcfg, Hf. by eexists. }
  split; [|split; [done|]].
  - intros Hnone. apply Hfalsy. by rewrite Hnone.
  - intros Ht Hs. unfold solve_route, try_catch. rewrite Hcfg, Ht.
    destruct (field "image" req_body) as [[]|]; try discriminate; by eexists.
Qed.

Lemma solve_route_validates_image_witness :
  (exists msg, solve_route sample_config (ObjectBody []) offline []
               = (Ok {| status := 400; body := ErrorBody msg "NO_IMAGE" |}, []))
  /\ (exists msg, solve_route sample_config (ObjectBody [("image", JArray [JString "iVBORw0KGgo="])])
                    offline []
                  = (Ok {| status := 400; body := ErrorBody msg "INVALID_FORMAT" |}, [])).
Proof.
  split.
  - apply (solve_route_validates_image sample_config (ObjectBody []) offline []); reflexivity.
  - apply (solve_route_validates_image sample_config
             (ObjectBody [("image", JArray [JString "iVBORw0KGgo="])]) offline []);
      reflexivity.
Defined.

(** C5, as the specification words it, fails for an [image] that is present,
    is not a string and is falsy: the emptiness test comes first and answers
    NO_IMAGE, not INVALID_FORMAT. *)
Lemma solve_route_validates_image_counterexample :
  field "image" (ObjectBody [("image", JBool false)]) = Some (JBool false)
  /\ JsValue.is_string (Some (JBool false)) = false
  /\ solve_route sample_config (ObjectBody [("image", JBool false)]) offline []
     = (Ok {| status := 400;
              body := ErrorBody ("No image provided. Please send a base64-encoded image in the "
                                 ++ dq "'image'" ++ " field.") "NO_IMAGE" |}, []).
Proof. repeat split; reflexivity. Qed.








(** C1 at the input where the code breaks it.  The text model answers
    [/solve-text] with status 200 and no choice; the content is the empty
    string, [parseResponse] gives [null], [solveFromText] passes it on
    unchecked, and the route sends [null] with status 200: no solution, where
    [solveFromImage] tests the same result and throws. *)
Theorem solve_text_route_null_solution :
  solve_text_route sample_config (ObjectBody [("text", JString "2+2")])
                   (always (dq "{'choices':[]}")) []
  = (Ok {| status := 200; body := SolutionBody None |}, [text_request "2+2"]).
Proof. reflexivity. Qed.

(** What holds of the boundary: [/solve] sends a populated solution whenever
    it sends one, and [/solve-text] does whenever the content is not empty. *)
Lemma solve_route_populated cfg req_body w tr s tr' :
  solve_route cfg req_body w tr = (Ok {| status := 200; body := SolutionBody s |}, tr') ->
  exists s', s = Some s' /\ populated s'.
Proof.
  unfold solve_route, try_catch.
  destruct (credential_configured cfg); simpl; [|discriminate].
  destruct (JsValue.truthy (field "image" req_body)); simpl; [|discriminate].
  destruct (field "image" req_body) as [[| | |image| |]|]; try discriminate.
  destruct (exceeds _ _); [discriminate|].
  unfold bind at 1.
  destruct (solveFromImage_outcome image w tr) as (tr'' & [(s' & -> & Hp)| ->]).
  - intros [= <- <-]. eauto.
  - discriminate.
Qed.

Lemma solveFromText_populated text w tr s tr' :
  solveFromText text w tr = (Ok (Some s), tr') -> populated s.
Proof.
  unfold solveFromText, textOnlySolve, bind, lift.
  destruct (chatCompletion _ _ _ _ w tr) as [[c|e] tr1]; [|discriminate].
  intros [= H _]. by apply parseResponse_populated in H.
Qed.

(** [/solve-text] sends [null] exactly when the text model succeeds with the
    empty content. *)
Lemma solveFromText_null text w tr tr' :
  solveFromText text w tr = (Ok None, tr')
  <-> chatCompletion TEXT_LLM (text_messages text) 1200 TEXT_TIMEOUT_MS w tr
      = (Ok EmptyString, tr').
Proof.
  unfold solveFromText, textOnlySolve, bind, lift.
  destruct (chatCompletion _ _ _ _ w tr) as [[c|e] tr1]; [|split; discriminate].
  destruct (parseResponse_never_throws c text) as (r & Hr & Hiff & _). rewrite Hr.
  split.
  - intros [= -> ->]. by rewrite (proj1 Hiff eq_refl).
  - intros [= -> ->]. by rewrite (proj2 Hiff eq_refl).
Qed.

(** ** The history *)

Module HistoryFacts.

Import History.

Section WithSolution.

Context {Sol : Type}.

Implicit Types (ls : gmap string (list (HistoryItem Sol))) (h : list (HistoryItem Sol)).

Lemma readHistory_save c s ls :
  readHistory (saveToHistory c s ls) = pushed (item (c, s)) (readHistory ls).
Proof. unfold saveToHistory, readHistory at 1. by rewrite lookup_insert_eq. Qed.

Lemma length_pushed x h :
  List.length (pushed x h)
  = if (50 <? List.length h + 1)%nat then List.length h else (List.length h + 1)%nat.
Proof.
  unfold pushed. replace (List.length (x :: h)) with (List.length h + 1)%nat by (simpl; lia).
  destruct (50 <? List.length h + 1)%nat.
  - rewrite removelast_firstn_len, length_take. simpl. lia.
  - simpl. lia.
Qed.

(** Within the bound, a save keeps the 50 newest. *)
Lemma pushed_take x h :
  (List.length h <= 50)%nat -> pushed x h = take 50 (x :: h).
Proof.
  intros Hle. unfold pushed. destruct (50 <? List.length (x :: h))%nat eqn:E.
  - apply Nat.ltb_lt in E. rewrite removelast_firstn_len.
    replace (Init.Nat.pred (List.length (x :: h))) with 50%nat by (simpl in *; lia). done.
  - apply Nat.ltb_ge in E. by rewrite take_ge.
Qed.

Lemma take_app_take {A} (n : nat) (a b : list A) :
  take n (a ++ take n b) = take n (a ++ b).
Proof.
  rewrite !take_app. f_equal. rewrite take_take. f_equal. lia.
Qed.

Lemma readHistory_saveAll saves ls :
  (List.length (readHistory ls) <= 50)%nat ->
  readHistory (saveAll saves ls) = take 50 (reverse (map item saves) ++ readHistory ls).
Proof.
  revert ls. induction saves as [|[c s] saves IH]; intros ls Hle.
  - simpl. by rewrite take_ge.
  - change (saveAll ((c, s) :: saves) ls) with (saveAll saves (saveToHistory c s ls)).
    rewrite IH.
    + rewrite readHistory_save, pushed_take by done.
      rewrite take_app_take. simpl map. rewrite reverse_cons, <- (assoc_L (++)). done.
    + rewrite readHistory_save, length_pushed. destruct (50 <? _)%nat eqn:E; [lia|].
      apply Nat.ltb_ge in E. lia.
Qed.

End WithSolution.

End HistoryFacts.

(** C9. Starting from an empty history, after 51 saves the stored list has
    exactly 50 entries, it holds the 50 newest items with the newest first,
    and its first entry is the item of the last save. *)
Theorem history_after_51_saves
    (Sol : Type) (saves : list (History.clock * Sol))
    (localStorage : gmap string (list (History.HistoryItem Sol))) :
  History.readHistory localStorage = [] ->
  List.length saves = 51%nat ->
  let history := History.readHistory (History.saveAll saves localStorage) in
  List.length history = 50%nat
  /\ history = take 50 (reverse (map History.item saves))
  /\ head history = History.item <$> last saves.
Proof.
  intros Hempty Hlen history. subst history.
  rewrite HistoryFacts.readHistory_saveAll by (rewrite Hempty; simpl; lia).
  rewrite Hempty, app_nil_r.
  split; [|split; [done|]].
  - rewrite length_take, length_reverse, length_map. lia.
  - destruct (reverse (map History.item saves)) as [|x r] eqn:E.
    + apply (f_equal List.length) in E. rewrite length_reverse, length_map in E.
      simpl in E. lia.
    + simpl. rewrite <- fmap_last, <- head_reverse.
      change (History.item <$> saves) with (map History.item saves).
      by rewrite E.
Qed.

(** ** The parser consumes its input *)

Module JsonFacts.

Import JsString Json.

Lemma skip_ws_length s : (String.length (skip_ws s) <= String.length s)%nat.
Proof.
  induction s as [|c s IH]; simpl; [lia|].
  destruct (is_ws c); simpl; lia.
Qed.

Lemma expect_length c s r : expect c s = Some r -> String.length s = S (String.length r).
Proof.
  destruct s as [|a s]; simpl; [discriminate|].
  destruct (Ascii.eqb a c); [|discriminate]. by intros [= ->].
Qed.

Lemma strip_prefix_length p s r :
  strip_prefix p s = Some r -> (String.length r <= String.length s)%nat.
Proof.
  revert s. induction p as [|a p IH]; intros [|b s]; simpl; try discriminate.
  - by intros [= <-].
  - by intros [= <-].
  - destruct (Ascii.eqb a b); [|discriminate]. intros H%IH. lia.
Qed.

(** A string literal is no longer than the text that wrote it. *)
Lemma parse_chars_length s t r :
  parse_chars s = Some (t, r) -> (String.length t + String.length r < String.length s)%nat.
Proof.
  remember (String.length s) as n eqn:Hn. revert s t r Hn.
  induction n as [n IH] using lt_wf_ind. intros s t r -> H.
  destruct s as [|c s]; [discriminate|]. simpl in H.
  destruct (Ascii.eqb c quote); [cbn beta iota in H; injection H as <- <-; simpl; lia|].
  destruct (Ascii.eqb c "092").
  - destruct s as [|e s]; [discriminate|].
    destruct (Ascii.eqb e "u").
    + destruct s as [|h1 [|h2 [|h3 [|h4 s]]]]; try discriminate.
      destruct (hex4 h1 h2 h3 h4) as [k|]; [|discriminate].
      destruct (k <? 256)%N; [|discriminate].
      destruct (parse_chars s) as [[t' r']|] eqn:E; [|discriminate].
      cbn beta iota in H; injection H as <- <-.
      specialize (IH (String.length s) ltac:(simpl; lia) s t' r' eq_refl E). simpl. lia.
    + destruct (escape_char e); [|discriminate].
      destruct (parse_chars s) as [[t' r']|] eqn:E; [|discriminate].
      cbn beta iota in H; injection H as <- <-.
      specialize (IH (String.length s) ltac:(simpl; lia) s t' r' eq_refl E). simpl. lia.
  - destruct (nat_of_ascii c <? 32)%nat; [discriminate|].
    destruct (parse_chars s) as [[t' r']|] eqn:E; [|discriminate].
    cbn beta iota in H; injection H as <- <-.
    specialize (IH (String.length s) ltac:(simpl; lia) s t' r' eq_refl E). simpl. lia.
Qed.

Lemma parse_digits_length s acc count n k r :
  parse_digits s acc count = (n, k, r) -> (String.length r <= String.length s)%nat.
Proof.
  revert acc count. induction s as [|c s IH]; simpl; intros acc count.
  - by intros [= _ _ <-].
  - destruct (is_digit c).
    + intros H%IH. lia.
    + by intros [= _ _ <-].
Qed.

Lemma parse_int_consumes s i r :
  parse_int s = Some (i, r) -> (String.length r < String.length s)%nat.
Proof.
  unfold parse_int. destruct s as [|c s]; [discriminate|].
  destruct (Ascii.eqb c "0"); [intros [= _ <-]; simpl; lia|].
  destruct (is_digit c) eqn:Hc; [|discriminate].
  simpl. rewrite Hc.
  destruct (parse_digits s _ _) as [[n k] rest] eqn:Ed.
  intros [= _ <-]. apply parse_digits_length in Ed. simpl. lia.
Qed.

Lemma parse_frac_length m s m' k r :
  parse_frac m s = Some (m', k, r) -> (String.length r <= String.length s)%nat.
Proof.
  unfold parse_frac. destruct (expect "." s) as [r0|] eqn:E.
  - destruct (parse_digits r0 m 0) as [[m0 k0] rest] eqn:Ed.
    destruct k0; [discriminate|]. intros [= _ _ <-].
    apply parse_digits_length in Ed. apply expect_length in E. lia.
  - by intros [= _ _ <-].
Qed.

Lemma parse_exp_length s e r :
  parse_exp s = Some (e, r) -> (String.length r <= String.length s)%nat.
Proof.
  unfold parse_exp. destruct s as [|c s]; [by intros [= _ <-]|].
  destruct (Ascii.eqb c "e" || Ascii.eqb c "E"); [|by intros [= _ <-]].
  destruct (expect "+" s) as [r'|] eqn:Ep; [|destruct (expect "-" s) as [r'|] eqn:Em].
  - destruct (parse_digits r' 0 0) as [[e' k'] rest] eqn:Ed.
    destruct k'; [discriminate|]. intros [= _ <-].
    apply parse_digits_length in Ed. apply expect_length in Ep. simpl. lia.
  - destruct (parse_digits r' 0 0) as [[e' k'] rest] eqn:Ed.
    destruct k'; [discriminate|]. intros [= _ <-].
    apply parse_digits_length in Ed. apply expect_length in Em. simpl. lia.
  - destruct (parse_digits s 0 0) as [[e' k'] rest] eqn:Ed.
    destruct k'; [discriminate|]. intros [= _ <-].
    apply parse_digits_length in Ed. simpl. lia.
Qed.

(** A number takes at least one character. *)
Lemma parse_number_consumes s n r :
  parse_number s = Some (n, r) -> (String.length r < String.length s)%nat.
Proof.
  unfold parse_number.
  assert (exists neg s1, (match expect "-" s with Some r0 => (true, r0) | None => (false, s) end)
                         = (neg, s1) /\ (String.length s1 <= String.length s)%nat)
    as (neg & s1 & -> & H1).
  { destruct (expect "-" s) as [r0|] eqn:E; eexists _, _; split; try done.
    apply expect_length in E. lia. }
  destruct (parse_int s1) as [[i s2]|] eqn:Ei; [|discriminate].
  apply parse_int_consumes in Ei.
  destruct (parse_frac i s2) as [[[m k] s3]|] eqn:Ef; [|discriminate].
  apply parse_frac_length in Ef.
  destruct (parse_exp s3) as [[e s4]|] eqn:Ee; [|discriminate].
  apply parse_exp_length in Ee.
  intros [= _ <-]. lia.
Qed.

Lemma parse_number_length s n r :
  parse_number s = Some (n, r) -> (String.length r <= String.length s)%nat.
Proof. intros H%parse_number_consumes. lia. Qed.

Lemma parse_literal_length s v r :
  parse_literal s = Some (v, r) -> (String.length r <= String.length s)%nat.
Proof.
  unfold parse_literal.
  destruct (strip_prefix "true" s) as [r1|] eqn:E1.
  { intros [= _ <-]. by apply strip_prefix_length in E1. }
  destruct (strip_prefix "false" s) as [r2|] eqn:E2.
  { intros [= _ <-]. by apply strip_prefix_length in E2. }
  destruct (strip_prefix "null" s) as [r3|] eqn:E3.
  { intros [= _ <-]. by apply strip_prefix_length in E3. }
  destruct (parse_number s) as [[n r4]|] eqn:E4; [|discriminate].
  intros [= _ <-]. by apply parse_number_length in E4.
Qed.

(** What a parser returns is a suffix no longer than its input, and every
    key of an object it builds was written in that input. *)
Lemma parse_length fuel :
  (forall s v r, parse_value fuel s = Some (v, r) ->
                 (String.length r <= String.length s)%nat
                 /\ keys_within (String.length s) [] v)
  /\ (forall s acc v r, parse_elements fuel s acc = Some (v, r) ->
                        (String.length r <= String.length s)%nat)
  /\ (forall s acc v r, parse_members fuel s acc = Some (v, r) ->
                        (String.length r <= String.length s)%nat
                        /\ keys_within (String.length s) acc v).
Proof.
  induction fuel as [|f (IHv & IHe & IHm)]; [by repeat split|].
  split; [|split].
  - intros s v r. simpl. pose proof (skip_ws_length s) as Hws.
    destruct (skip_ws s) as [|c s'] eqn:Es; [discriminate|].
    destruct (Ascii.eqb c "{").
    { destruct (expect "}" (skip_ws s')) as [r'|] eqn:E.
      - intros [= <- <-]. apply expect_length in E.
        pose proof (skip_ws_length s'). simpl in *. split; [lia|]. by intros k x [].
      - intros H. destruct (IHm _ _ _ _ H) as [Hl Hk]. simpl in *. split; [lia|].
        destruct v; try done. intros k x Hin. destruct (Hk k x Hin) as [[]|]. right. lia. }
    destruct (Ascii.eqb c "[").
    { destruct (expect "]" (skip_ws s')) as [r'|] eqn:E.
      - intros [= <- <-]. apply expect_length in E.
        pose proof (skip_ws_length s'). simpl in *. split; [lia|done].
      - intros H. pose proof (IHe _ _ _ _ H) as Hl.
        assert (exists l, v = JArray l) as [l ->]; [|simpl in *; split; [lia|done]].
        clear -H. revert s' H. generalize (@nil jsval).
        induction f as [|f IH]; intros acc s' H; [discriminate|]. simpl in H.
        destruct (parse_value f s') as [[v' r']|]; [|discriminate].
        destruct (expect "," (skip_ws r')); [by eapply IH|].
        destruct (expect "]" (skip_ws r')); [|discriminate].
        cbn beta iota in H; injection H as <- _. eauto. }
    destruct (Ascii.eqb c quote).
    { destruct (parse_chars s') as [[t rest]|] eqn:E; [|discriminate].
      intros [= <- <-]. apply parse_chars_length in E. simpl in *. split; [lia|done]. }
    intros H. pose proof (parse_literal_length _ _ _ H) as Hl. split; [lia|].
    unfold parse_literal in H.
    destruct (strip_prefix "true" _); [cbn beta iota in H; injection H as <- _; done|].
    destruct (strip_prefix "false" _); [cbn beta iota in H; injection H as <- _; done|].
    destruct (strip_prefix "null" _); [cbn beta iota in H; injection H as <- _; done|].
    destruct (parse_number _) as [[n r4]|]; [cbn beta iota in H; injection H as <- _; done|discriminate].
  - intros s acc v r. simpl.
    destruct (parse_value f s) as [[v' r']|] eqn:Ev; [|discriminate].
    destruct (IHv _ _ _ Ev) as [Hl _]. pose proof (skip_ws_length r') as Hws.
    destruct (expect "," (skip_ws r')) as [r1|] eqn:E1.
    { intros H%IHe. apply expect_length in E1. lia. }
    destruct (expect "]" (skip_ws r')) as [r2|] eqn:E2; [|discriminate].
    intros [= _ <-]. apply expect_length in E2. lia.
  - intros s acc v r. simpl. pose proof (skip_ws_length s) as Hws.
    destruct (expect quote (skip_ws s)) as [r0|] eqn:E0; [|discriminate].
    apply expect_length in E0.
    destruct (parse_chars r0) as [[k r1]|] eqn:Ek; [|discriminate].
    apply parse_chars_length in Ek. pose proof (skip_ws_length r1) as Hws1.
    destruct (expect ":" (skip_ws r1)) as [r2|] eqn:E2; [|discriminate].
    apply expect_length in E2.
    destruct (parse_value f r2) as [[x r3]|] eqn:Ev; [|discriminate].
    destruct (IHv _ _ _ Ev) as [Hl3 _]. pose proof (skip_ws_length r3) as Hws3.
    destruct (expect "," (skip_ws r3)) as [r4|] eqn:E4.
    { apply expect_length in E4. intros H. destruct (IHm _ _ _ _ H) as [Hl Hk].
      split; [lia|]. destruct v; try done. intros k' x' Hin.
      destruct (Hk k' x' Hin) as [[[= -> ->]|Hacc]|Hlt]; [right; lia|by left|right; lia]. }
    destruct (expect "}" (skip_ws r3)) as [r5|] eqn:E5; [|discriminate].
    apply expect_length in E5. intros [= <- <-]. split; [lia|].
    intros k' x' Hin. apply in_app_iff in Hin as [Hacc|[[= -> ->]|[]]].
    + left. by apply in_rev.
    + right. lia.
Qed.



End JsonFacts.

(** ** The fuel of the parser *)

Module FuelFacts.

Import JsString Json JsonFacts.

Lemma strip_prefix_exact p s r :
  strip_prefix p s = Some r -> String.length s = (String.length p + String.length r)%nat.
Proof.
  revert s. induction p as [|a p IH]; intros [|b s]; simpl; try discriminate.
  - by intros [= <-].
  - by intros [= <-].
  - destruct (Ascii.eqb a b); [|discriminate]. intros H%IH. lia.
Qed.

Lemma parse_literal_consumes s v r :
  parse_literal s = Some (v, r) -> (String.length r < String.length s)%nat.
Proof.
  unfold parse_literal.
  destruct (strip_prefix "true" s) as [r1|] eqn:E1.
  { intros [= _ <-]. apply strip_prefix_exact in E1. simpl in E1. lia. }
  destruct (strip_prefix "false" s) as [r2|] eqn:E2.
  { intros [= _ <-]. apply strip_prefix_exact in E2. simpl in E2. lia. }
  destruct (strip_prefix "null" s) as [r3|] eqn:E3.
  { intros [= _ <-]. apply strip_prefix_exact in E3. simpl in E3. lia. }
  destruct (parse_number s) as [[n r4]|] eqn:E4; [|discriminate].
  intros [= _ <-]. by apply parse_number_consumes in E4.
Qed.

(** A value takes at least one character. *)
Lemma parse_value_consumes fuel s v r :
  parse_value fuel s = Some (v, r) -> (String.length r < String.length s)%nat.
Proof.
  destruct fuel as [|f]; [discriminate|]. simpl.
  destruct (parse_length f) as (_ & IHe & IHm).
  pose proof (skip_ws_length s) as Hws.
  destruct (skip_ws s) as [|c s'] eqn:Es; [discriminate|]. simpl in Hws.
  destruct (Ascii.eqb c "{").
  { destruct (expect "}" (skip_ws s')) as [r'|] eqn:E.
    - intros [= _ <-]. apply expect_length in E. pose proof (skip_ws_length s'). lia.
    - intros H. destruct (IHm _ _ _ _ H). lia. }
  destruct (Ascii.eqb c "[").
  { destruct (expect "]" (skip_ws s')) as [r'|] eqn:E.
    - intros [= _ <-]. apply expect_length in E. pose proof (skip_ws_length s'). lia.
    - intros H. pose proof (IHe _ _ _ _ H). lia. }
  destruct (Ascii.eqb c quote).
  { destruct (parse_chars s') as [[t rest]|] eqn:E; [|discriminate].
    intros [= _ <-]. apply parse_chars_length in E. lia. }
  intros H%parse_literal_consumes. simpl in H. lia.
Qed.

(** The fuel a parse needs is within twice the characters it takes: any
    larger fuel gives the same result. *)
Lemma fuel_enough fuel :
  (forall s v r, parse_value fuel s = Some (v, r) ->
     forall g, (2 * (String.length s - String.length r) <= g)%nat ->
               parse_value g s = Some (v, r))
  /\ (forall s acc v r, parse_elements fuel s acc = Some (v, r) ->
        forall g, (2 * (String.length s - String.length r) <= g)%nat ->
                  parse_elements g s acc = Some (v, r))
  /\ (forall s acc v r, parse_members fuel s acc = Some (v, r) ->
        forall g, (2 * (String.length s - String.length r) <= g)%nat ->
                  parse_members g s acc = Some (v, r)).
Proof.
  induction fuel as [|f (IHv & IHe & IHm)]; [by repeat split|].
  destruct (parse_length f) as (Lv & Le & Lm).
  split; [|split].
  - intros s v r H g Hg. pose proof (parse_value_consumes _ _ _ _ H) as Hlt.
    destruct g as [|g]; [lia|]. simpl in H |- *.
    pose proof (skip_ws_length s) as Hws.
    destruct (skip_ws s) as [|c s'] eqn:Es; [discriminate|]. simpl in Hws.
    destruct (Ascii.eqb c "{").
    { destruct (expect "}" (skip_ws s')) as [r'|] eqn:E; [done|].
      destruct (Lm _ _ _ _ H). apply (IHm _ _ _ _ H). lia. }
    destruct (Ascii.eqb c "[").
    { destruct (expect "]" (skip_ws s')) as [r'|] eqn:E; [done|].
      pose proof (Le _ _ _ _ H). apply (IHe _ _ _ _ H). lia. }
    done.
  - intros s acc v r H g Hg. simpl in H.
    destruct (parse_value f s) as [[v' r']|] eqn:Ev; [|discriminate].
    pose proof (parse_value_consumes _ _ _ _ Ev) as Hlt.
    pose proof (skip_ws_length r') as Hws.
    destruct (expect "," (skip_ws r')) as [r1|] eqn:E1.
    + pose proof (expect_length _ _ _ E1). pose proof (Le _ _ _ _ H).
      destruct g as [|g]; [lia|]. simpl.
      rewrite (IHv _ _ _ Ev g) by lia. rewrite E1.
      apply (IHe _ _ _ _ H). lia.
    + destruct (expect "]" (skip_ws r')) as [r2|] eqn:E2; [|discriminate].
      pose proof (expect_length _ _ _ E2). injection H as <- <-.
      destruct g as [|g]; [lia|]. simpl.
      rewrite (IHv _ _ _ Ev g) by lia. by rewrite E1, E2.
  - intros s acc v r H g Hg. simpl in H.
    pose proof (skip_ws_length s) as Hws.
    destruct (expect quote (skip_ws s)) as [r0|] eqn:E0; [|discriminate].
    pose proof (expect_length _ _ _ E0).
    destruct (parse_chars r0) as [[k r1]|] eqn:Ek; [|discriminate].
    pose proof (parse_chars_length _ _ _ Ek). pose proof (skip_ws_length r1) as Hws1.
    destruct (expect ":" (skip_ws r1)) as [r2|] eqn:E2; [|discriminate].
    pose proof (expect_length _ _ _ E2).
    destruct (parse_value f r2) as [[x r3]|] eqn:Ev; [|discriminate].
    pose proof (parse_value_consumes _ _ _ _ Ev). pose proof (skip_ws_length r3) as Hws3.
    destruct (expect "," (skip_ws r3)) as [r4|] eqn:E4.
    + pose proof (expect_length _ _ _ E4). destruct (Lm _ _ _ _ H) as [Hl _].
      destruct g as [|g]; [lia|]. simpl.
      rewrite E0, Ek, E2. rewrite (IHv _ _ _ Ev g) by lia. rewrite E4.
      apply (IHm _ _ _ _ H). lia.
    + destruct (expect "}" (skip_ws r3)) as [r5|] eqn:E5; [|discriminate].
      pose proof (expect_length _ _ _ E5). injection H as <- <-.
      destruct g as [|g]; [lia|]. simpl.
      rewrite E0, Ek, E2. rewrite (IHv _ _ _ Ev g) by lia. by rewrite E4, E5.
Qed.

(** [Json.parse] has fuel enough: whatever some fuel parses as a whole text,
    it parses. *)
Lemma parse_adequate fuel s v rest :
  parse_value fuel s = Some (v, rest) -> skip_ws rest = EmptyString ->
  parse s = Some v.
Proof.
  intros H Hrest. unfold parse.
  destruct (fuel_enough fuel) as (Hv & _ & _).
  rewrite (Hv _ _ _ H) by lia. by rewrite Hrest.
Qed.

End FuelFacts.

(** ** A JSON object inside the text *)





(** ** The bound of the history *)

(** C10. A save evicts at most one entry: the list grows by one unless that
    takes it over 50, and then it keeps its length.  So the bound of 50 is
    kept from lists of at most 50 entries only: a list already over 50 is
    still over 50 after a save. *)
Theorem saveToHistory_evicts_at_most_one
    (Sol : Type) (c : History.clock) (s : Sol)
    (localStorage : gmap string (list (History.HistoryItem Sol))) :
  let before := List.length (History.readHistory localStorage) in
  let after := List.length (History.readHistory (History.saveToHistory c s localStorage)) in
  after = (if (50 <? before + 1)%nat then before else (before + 1)%nat)
  /\ ((before <= 50)%nat -> (after <= 50)%nat)
  /\ ((50 < before)%nat -> (50 < after)%nat).
Proof.
  intros before after. subst before after.
  rewrite HistoryFacts.readHistory_save, HistoryFacts.length_pushed.
  destruct (50 <? _)%nat eqn:E; [apply Nat.ltb_lt in E|apply Nat.ltb_ge in E];
    repeat split; lia.
Qed.

Lemma history_after_51_saves_witness :
  let history := History.readHistory (History.saveAll sample_saves ∅) in
  List.length history = 50%nat
  /\ history = take 50 (reverse (map History.item sample_saves))
  /\ head history = History.item <$> last sample_saves.
Proof.
  apply (history_after_51_saves string sample_saves ∅); reflexivity.
Defined.

Lemma saveToHistory_evicts_at_most_one_witness :
  (50 < List.length
          (History.readHistory
             (History.saveToHistory {| History.localeDate := "11/2/2026";
                                       History.now := 1793664000000 |}
                                    "new" over_full)))%nat.
Proof.
  apply (saveToHistory_evicts_at_most_one string
           {| History.localeDate := "11/2/2026"; History.now := 1793664000000 |}
           "new" over_full).
  unfold over_full, History.readHistory. rewrite lookup_insert_eq. simpl. lia.
Defined.

Lemma parseResponse_never_throws_witness :
  exists r, parseResponse "x = 4" "" = Ok r
            /\ (r = None <-> "x = 4" = EmptyString)
            /\ match r with
               | Some s => parse_block "x = 4" "" = Ok (Some s) \/ s = fallback "x = 4" ""
               | None => True
               end.
Proof. apply (parseResponse_never_throws "x = 4" ""). Defined.

(** * Further properties *)

(** ** One call to the provider *)


Lemma chatCompletion_outcome model msgs maxTokens timeout w tr :
  exists r, chatCompletion model msgs maxTokens timeout w tr
            = (r, (tr ++ [ {| model := model; messages := msgs;
                              max_tokens := maxTokens; timeoutMs := timeout |} ])%list).
Proof.
  pose proof (chatCompletion_trace model msgs maxTokens timeout w tr) as H.
  destruct (chatCompletion _ _ _ _ w tr) as [r tr']. simpl in H. subst. by eexists.
Qed.

(** X1. A call to the provider is made once and never repeated: however it
    ends, with a content or with an error, [chatCompletion] adds exactly its
    own request to the outbound calls. *)
Theorem chatCompletion_single_request
    (model : string) (msgs : list chat_message) (maxTokens : Z) (timeout : N)
    (w : world) (tr : list request) :
  exists r,
    chatCompletion model msgs maxTokens timeout w tr
    = (r, (tr ++ [ {| model := model; messages := msgs;
                      max_tokens := maxTokens; timeoutMs := timeout |} ])%list).
Proof. apply chatCompletion_outcome. Qed.





Lemma substring0_length n s : (String.length (JsString.substring0 n s) <= n)%nat.
Proof.
  revert s. induction n as [|n IH]; intros [|c s]; simpl; try lia.
  specialize (IH s). lia.
Qed.

(** X4. An answer with a status outside 200-299 is thrown as the error
    "HF API <status>: <body>", with the body cut to its first 200
    characters, whatever the body is. *)
Theorem chatCompletion_upstream_error
    (model : string) (msgs : list chat_message) (maxTokens : Z) (timeout : N)
    (w : world) (tr : list request) (status : N) (responseText : string) :
  fetch w (List.length tr)
    {| model := model; messages := msgs; max_tokens := maxTokens; timeoutMs := timeout |}
  = Response status responseText ->
  (status < 200 \/ 299 < status)%N ->
  exists shown,
    (chatCompletion model msgs maxTokens timeout w tr).1
    = Throw (Error ("HF API " ++ JsString.decimal status ++ ": " ++ shown))
    /\ (String.length shown <= 200)%nat
    /\ exists dropped, responseText = shown ++ dropped.
Proof.
  intros Hf Hst. exists (JsString.substring0 200 responseText).
  assert (status_ok status = false) as Hok.
  { unfold status_ok. apply andb_false_iff.
    destruct Hst; [left; apply N.leb_gt|right; apply N.leb_gt]; lia. }
  split; [|split].
  - unfold chatCompletion, try_catch, bind, call. by rewrite Hf, Hok.
  - apply substring0_length.
  - generalize 200%nat. intros n. revert responseText Hf.
    induction n as [|n IH]; intros s _.
    + exists s. by destruct s.
    + destruct s as [|c s]; [by exists EmptyString|].
      assert (exists dropped, s = JsString.substring0 n s ++ dropped) as [d Hd].
      { clear -n. revert s. induction n as [|n IH]; intros s.
        - exists s. by destruct s.
        - destruct s as [|c s]; [by exists EmptyString|].
          destruct (IH s) as [d Hd]. exists d. simpl. by rewrite <- Hd. }
      exists d. simpl. by rewrite <- Hd.
Qed.

Lemma chatCompletion_upstream_error_witness :
  exists shown,
    (chatCompletion TEXT_LLM (text_messages "2+2") 1200 TEXT_TIMEOUT_MS
       (scripted [Response 503 "Model is currently loading"]) []).1
    = Throw (Error ("HF API " ++ JsString.decimal 503 ++ ": " ++ shown))
    /\ (String.length shown <= 200)%nat
    /\ exists dropped, "Model is currently loading" = shown ++ dropped.
Proof.
  apply (chatCompletion_upstream_error TEXT_LLM (text_messages "2+2") 1200 TEXT_TIMEOUT_MS
           (scripted [Response 503 "Model is currently loading"]) [] 503
           "Model is currently loading").
  - reflexivity.
  - right. lia.
Defined.

(** ** The loop over the vision models *)

(** One turn of the loop: the attempt on the first model either ends the
    loop or hands over to the models that are left. *)
Lemma tryVisionModels_step m rest msgs w tr :
  tryVisionModels (m :: rest) msgs w tr
  = match chatCompletion m msgs 1200 VISION_TIMEOUT_MS w tr with
    | (Ok c, tr') =>
        if negb (String.eqb c EmptyString) && (10 <? String.length c)%nat
        then match parseResponse c "" with
             | Ok r => (Ok r, tr')
             | Throw _ => tryVisionModels rest msgs w tr'
             end
        else tryVisionModels rest msgs w tr'
    | (Throw _, tr') => tryVisionModels rest msgs w tr'
    end.
Proof.
  simpl. unfold bind at 1. unfold try_catch at 1. unfold bind at 1.
  destruct (chatCompletion m msgs 1200 VISION_TIMEOUT_MS w tr) as [[c|e] tr']; [|done].
  destruct (negb (c =? "") && (10 <? String.length c)%nat); [|done].
  unfold bind, lift, ret. by destruct (parseResponse c "") as [r|e].
Qed.

(** X5. First success wins: when a model answers with a content longer than
    10 characters, the loop returns the parsed content after that one call
    and calls none of the models listed after it. *)
Theorem vision_first_success_wins
    (m : string) (rest : list string) (msgs : list chat_message)
    (w : world) (tr : list request) (c : string) :
  answers w (List.length tr) (vision_call m msgs) c ->
  (10 < String.length c)%nat ->
  exists s,
    parseResponse c "" = Ok (Some s)
    /\ tryVisionModels (m :: rest) msgs w tr = (Ok (Some s), (tr ++ [vision_call m msgs])%list).
Proof.
  intros Hans Hlen. rewrite tryVisionModels_step.
  rewrite (chatCompletion_answers _ _ _ _ w tr c Hans).
  apply Nat.ltb_lt in Hlen as Hltb. rewrite Hltb.
  destruct c as [|x c]; [simpl in Hlen; lia|]. cbn [String.eqb negb andb].
  destruct (parseResponse_cases (String x c) "") as (s & Hs & _); [done|].
  exists s. by rewrite Hs.
Qed.

Lemma vision_first_success_wins_witness :
  exists s,
    parseResponse "The answer is x = 4." "" = Ok (Some s)
    /\ tryVisionModels ["model-a"; "model-b"] (vision_messages "iVBORw0KGgo=")
         (always (completion_body "The answer is x = 4.")) []
       = (Ok (Some s), [vision_call "model-a" (vision_messages "iVBORw0KGgo=")]).
Proof.
  apply (vision_first_success_wins "model-a" ["model-b"] (vision_messages "iVBORw0KGgo=")
           (always (completion_body "The answer is x = 4.")) [] "The answer is x = 4.").
  - eexists 200%N, _, _. repeat split; reflexivity.
  - simpl. lia.
Defined.




(** X7. A vision answer of at most 10 characters counts as a failure: the
    vision stage yields nothing, and when the text model then answers with
    a content that is not empty, the user is told that the image could not
    be read although the vision model did answer. *)
Theorem vision_short_answer_discarded
    (image : string) (w : world) (c : string) :
  answers w 0 (vision_request image) c ->
  (String.length c <= 10)%nat ->
  tryVisionSolve image w [] = (Ok None, [vision_request image])
  /\ forall c',
       answers w 1 (text_request UNREADABLE_IMAGE_PROBLEM) c' ->
       c' <> EmptyString ->
       exists s,
         solveFromImage image w []
         = (Ok s, [vision_request image; text_request UNREADABLE_IMAGE_PROBLEM])
         /\ previewText s = JString "Image could not be read"
         /\ answer s = JString "Could not read image".
Proof.
  intros Hans Hlen.
  assert (tryVisionSolve image w [] = (Ok None, [vision_request image])) as Hv.
  { unfold tryVisionSolve, VISION_MODELS. rewrite tryVisionModels_step.
    rewrite (chatCompletion_answers _ _ _ _ w [] c Hans).
    apply Nat.ltb_ge in Hlen. rewrite Hlen, andb_false_r. reflexivity. }
  split; [done|]. intros c' Hans' Hne.
  rewrite (solveFromImage_fallback image w [] [vision_request image] c'
             [vision_request image; text_request UNREADABLE_IMAGE_PROBLEM] Hv).
  - destruct (parseResponse_cases c' UNREADABLE_IMAGE_PROBLEM Hne) as (r & -> & _).
    by exists (mark_unreadable r).
  - by rewrite (chatCompletion_answers _ _ _ _ w [vision_request image] c' Hans').
Qed.

Lemma vision_short_answer_discarded_witness :
  tryVisionSolve "iVBORw0KGgo=" (always (completion_body "x = 4")) []
  = (Ok None, [vision_request "iVBORw0KGgo="])
  /\ exists s,
       solveFromImage "iVBORw0KGgo=" (always (completion_body "x = 4")) []
       = (Ok s, [vision_request "iVBORw0KGgo="; text_request UNREADABLE_IMAGE_PROBLEM])
       /\ previewText s = JString "Image could not be read"
       /\ answer s = JString "Could not read image".
Proof.
  destruct (vision_short_answer_discarded "iVBORw0KGgo=" (always (completion_body "x = 4"))
              "x = 4") as [Hv Hs].
  - eexists 200%N, _, _. repeat split; reflexivity.
  - simpl. lia.
  - split; [exact Hv|]. apply (Hs "x = 4"); [|discriminate].
    eexists 200%N, _, _. repeat split; reflexivity.
Defined.

(** ** The orchestrator as a whole *)

(** X8. [solveFromImage] makes one outbound call or two, never more: the
    call to the vision model, and after it at most the call to the text
    model with the fixed problem of the unreadable image. *)
Theorem solveFromImage_at_most_two_calls (image : string) (w : world) (tr : list request) :
  (solveFromImage image w tr).2 = (tr ++ [vision_request image])%list
  \/ (solveFromImage image w tr).2
     = (tr ++ [vision_request image; text_request UNREADABLE_IMAGE_PROBLEM])%list.
Proof. apply solveFromImage_trace. Qed.

(** X9. Whatever the provider does, [solveFromImage] either resolves to a
    solution whose preview, answer and explanation are truthy, or throws the
    one terminal error "All AI models are currently unavailable. ...": no
    other error and no [null] leaves it. *)
Theorem solveFromImage_solution_or_terminal_error
    (image : string) (w : world) (tr : list request) :
  exists tr',
    (exists s, solveFromImage image w tr = (Ok s, tr') /\ populated s)
    \/ solveFromImage image w tr = (Throw (Error ALL_UNAVAILABLE), tr').
Proof. apply solveFromImage_outcome. Qed.

(** ** The route of images *)

Lemma solve_route_unconfigured cfg req_body w tr :
  credential_configured cfg = false ->
  exists msg, solve_route cfg req_body w tr
              = (Ok {| status := 503; body := ErrorBody msg "MISSING_API_KEY" |}, tr).
Proof. intros H. unfold solve_route, try_catch. rewrite H. by eexists. Qed.








(** ** The data-URI header *)

Lemma skip_word_run w rest :
  forallb JsString.is_word (list_ascii_of_string w) = true ->
  skip_word (w ++ String ";" rest) = String ";" rest.
Proof.
  induction w as [|c w IH]; simpl; [done|].
  intros [Hc Hw]%andb_true_iff. rewrite Hc. auto.
Qed.

Lemma strip_prefix_app p s : JsString.strip_prefix p (p ++ s) = Some s.
Proof. induction p as [|c p IH]; simpl; [done|]. by rewrite Ascii.eqb_refl. Qed.

(** X12. The header the size check strips is exactly
    [data:image/<type>;base64,] with a type of one or more word characters:
    for such a header only the payload is measured; and a text that does not
    start with [data:image/] is measured whole. *)
Theorem strip_data_uri_header (type payload image : string) :
  (type <> EmptyString ->
   forallb JsString.is_word (list_ascii_of_string type) = true ->
   strip_data_uri ("data:image/" ++ type ++ ";base64," ++ payload) = payload)
  /\ (JsString.startsWith image "data:image/" = false -> strip_data_uri image = image).
Proof.
  split.
  - intros Hne Hw. unfold strip_data_uri.
    rewrite strip_prefix_app. destruct type as [|c type]; [done|].
    simpl in Hw. apply andb_true_iff in Hw as [Hc Hw]. simpl. rewrite Hc.
    rewrite (skip_word_run type _ Hw). done.
  - unfold JsString.startsWith, strip_data_uri.
    by destruct (JsString.strip_prefix "data:image/" image).
Qed.

Lemma strip_data_uri_header_witness :
  strip_data_uri ("data:image/" ++ "png" ++ ";base64," ++ "iVBORw0KGgo=") = "iVBORw0KGgo="
  /\ strip_data_uri "data:application/pdf;base64,JVBERi0=" = "data:application/pdf;base64,JVBERi0=".
Proof.
  split.
  - apply (strip_data_uri_header "png" "iVBORw0KGgo=" ""); [discriminate|reflexivity].
  - apply (strip_data_uri_header "" "" "data:application/pdf;base64,JVBERi0="). reflexivity.
Defined.

(** X13. The image goes to the vision model as a data URI: a text that
    already starts with [data:] is sent as it is, any other is sent after
    [data:image/png;base64,]; and the size check of the route, applied to
    the URL built for such a raw text, measures the raw text again. *)
Theorem vision_image_url (image : string) :
  exists url,
    vision_messages image = [ {| role := "user"; content := ImageAndText url VisionPrompt |} ]
    /\ JsString.startsWith url "data:" = true
    /\ (JsString.startsWith image "data:" = true -> url = image)
    /\ (JsString.startsWith image "data:" = false ->
        url = "data:image/png;base64," ++ image /\ strip_data_uri url = image).
Proof.
  unfold vision_messages. destruct (JsString.startsWith image "data:") eqn:E.
  - exists image. repeat split; try done.
  - exists ("data:image/png;base64," ++ image). repeat split; done.
Qed.

Lemma vision_image_url_witness :
  exists url,
    vision_messages "iVBORw0KGgo="
    = [ {| role := "user"; content := ImageAndText url VisionPrompt |} ]
    /\ JsString.startsWith url "data:" = true
    /\ (JsString.startsWith "iVBORw0KGgo=" "data:" = true -> url = "iVBORw0KGgo=")
    /\ (JsString.startsWith "iVBORw0KGgo=" "data:" = false ->
        url = "data:image/png;base64," ++ "iVBORw0KGgo="
        /\ strip_data_uri url = "iVBORw0KGgo=").
Proof. apply (vision_image_url "iVBORw0KGgo="). Defined.

(** ** The route of typed problems *)

Lemma trim_blank t : JsString.all_space t = true -> JsString.trim t = EmptyString.
Proof.
  intros H. pose proof (Lines.trim_visible t) as Hv. rewrite H in Hv. simpl in Hv.
  by destruct (JsString.trim t).
Qed.

Lemma trim_not_blank t : JsString.all_space t = false -> JsString.trim t <> EmptyString.
Proof.
  intros H E. pose proof (Lines.trim_visible t) as Hv. by rewrite H, E in Hv.
Qed.

(** X14. With a credential, [POST /solve-text] answers 400 NO_TEXT, without
    an outbound call, whenever the [text] field is absent, is not a string,
    or is a string of white space only (the empty string included). *)
Theorem solve_text_route_rejects_blank
    (cfg : config) (req_body : parsed_body) (w : world) (tr : list request) :
  credential_configured cfg = true ->
  match field "text" req_body with
  | Some (JString t) => JsString.all_space t = true
  | _ => True
  end ->
  exists msg, solve_text_route cfg req_body w tr
              = (Ok {| status := 400; body := ErrorBody msg "NO_TEXT" |}, tr).
Proof.
  intros Hcfg Hf. unfold solve_text_route, try_catch. rewrite Hcfg. cbn [negb].
  destruct (field "text" req_body) as [[| | |t| |]|]; try (by eexists).
  rewrite (trim_blank t Hf). simpl. rewrite orb_true_r. by eexists.
Qed.

Lemma solve_text_route_rejects_blank_witness :
  (exists msg, solve_text_route sample_config (ObjectBody [("text", JString "   ")]) offline []
               = (Ok {| status := 400; body := ErrorBody msg "NO_TEXT" |}, []))
  /\ (exists msg, solve_text_route sample_config (ObjectBody [("text", JArray [])]) offline []
                  = (Ok {| status := 400; body := ErrorBody msg "NO_TEXT" |}, [])).
Proof.
  split.
  - apply (solve_text_route_rejects_blank sample_config
             (ObjectBody [("text", JString "   ")]) offline []); reflexivity.
  - apply (solve_text_route_rejects_blank sample_config
             (ObjectBody [("text", JArray [])]) offline []); [reflexivity|exact I].
Defined.

Lemma solve_text_route_valid cfg req_body t w tr :
  credential_configured cfg = true ->
  field "text" req_body = Some (JString t) ->
  JsString.all_space t = false ->
  solve_text_route cfg req_body w tr
  = match solveFromText (JsString.trim t) w tr with
    | (Ok s, tr') => (Ok {| status := 200; body := SolutionBody s |}, tr')
    | (Throw e, tr') =>
        (Ok {| status := 500;
               body := ErrorBody (message_of (engine w) e) "PROCESSING_ERROR" |}, tr')
    end.
Proof.
  intros Hcfg Hf Hb. unfold solve_text_route, try_catch. rewrite Hcfg, Hf. cbn [negb].
  pose proof (trim_not_blank t Hb) as Hne.
  assert (String.eqb t EmptyString = false) as Ht by (by destruct t).
  assert ((String.length (JsString.trim t) =? 0)%nat = false) as Hl.
  { apply Nat.eqb_neq. by destruct (JsString.trim t). }
  cbn beta iota. rewrite Ht, Hl. cbn [orb]. unfold bind at 1.
  by destruct (solveFromText (JsString.trim t) w tr) as [[s|e] tr'].
Qed.

(** X15. A text that passes the validation of [/solve-text] is trimmed and
    sent to the text model in exactly one call.  When the call returns a
    content, the answer is 200 with what [parseResponse] makes of it, the
    trimmed text being the fallback preview; when the call throws, the
    answer is 500 with the message of the error as it is and the code
    PROCESSING_ERROR. *)
Theorem solve_text_route_one_call
    (cfg : config) (req_body : parsed_body) (t : string) (w : world) (tr : list request) :
  credential_configured cfg = true ->
  field "text" req_body = Some (JString t) ->
  JsString.all_space t = false ->
  (solve_text_route cfg req_body w tr).2 = (tr ++ [text_request (JsString.trim t)])%list
  /\ (forall c tr',
         chatCompletion TEXT_LLM (text_messages (JsString.trim t)) 1200 TEXT_TIMEOUT_MS w tr
         = (Ok c, tr') ->
         exists r, parseResponse c (JsString.trim t) = Ok r
                   /\ solve_text_route cfg req_body w tr
                      = (Ok {| status := 200; body := SolutionBody r |}, tr'))
  /\ (forall e tr',
         chatCompletion TEXT_LLM (text_messages (JsString.trim t)) 1200 TEXT_TIMEOUT_MS w tr
         = (Throw e, tr') ->
         solve_text_route cfg req_body w tr
         = (Ok {| status := 500;
                  body := ErrorBody (message_of (engine w) e) "PROCESSING_ERROR" |}, tr')).
Proof.
  intros Hcfg Hf Hb. rewrite (solve_text_route_valid cfg req_body t w tr Hcfg Hf Hb).
  split; [|split].
  - pose proof (textOnlySolve_trace (JsString.trim t) w tr) as Htr.
    unfold solveFromText. by destruct (textOnlySolve _ w tr) as [[s|e] tr'].
  - intros c tr' Hc. unfold solveFromText.
    rewrite (textOnlySolve_content _ _ _ _ _ Hc).
    destruct (parseResponse_never_throws c (JsString.trim t)) as (r & Hr & _).
    exists r. by rewrite Hr.
  - intros e tr' He. unfold solveFromText.
    by rewrite (textOnlySolve_throws _ _ _ _ _ He).
Qed.

Lemma solve_text_route_one_call_witness :
  solve_text_route sample_config (ObjectBody [("text", JString "  2+2 ")])
    (scripted [Response 503 "Model is currently loading"]) []
  = (Ok {| status := 500;
           body := ErrorBody "HF API 503: Model is currently loading" "PROCESSING_ERROR" |},
     [text_request "2+2"]).
Proof.
  destruct (solve_text_route_one_call sample_config (ObjectBody [("text", JString "  2+2 ")])
              "  2+2 " (scripted [Response 503 "Model is currently loading"]) []
              eq_refl eq_refl eq_refl) as (_ & _ & Hthrow).
  apply (Hthrow (Error "HF API 503: Model is currently loading")). reflexivity.
Defined.

(** X16. When the text model answers a typed problem with prose, a content
    that is not empty and has no brace block, [/solve-text] answers 200 with
    the typed text, trimmed, as the preview, the placeholder answer, the
    lines of the prose that are not blank as the steps, and the prose as the
    explanation. *)
Theorem solve_text_route_prose
    (cfg : config) (req_body : parsed_body) (t : string) (w : world) (tr : list request)
    (c : string) :
  credential_configured cfg = true ->
  field "text" req_body = Some (JString t) ->
  JsString.all_space t = false ->
  answers w (List.length tr) (text_request (JsString.trim t)) c ->
  c <> EmptyString ->
  ~ has_brace_block c ->
  solve_text_route cfg req_body w tr
  = (Ok {| status := 200;
           body := SolutionBody (Some
             {| previewText := JString (JsString.trim t);
                answer := JString "See explanation below";
                steps := map JString
                           (List.filter (fun l => negb (JsString.all_space l))
                                        (JsString.split JsString.newline c));
                explanation := JString c |}) |},
     (tr ++ [text_request (JsString.trim t)])%list).
Proof.
  intros Hcfg Hf Hb Hans Hne Hnb.
  rewrite (solve_text_route_valid cfg req_body t w tr Hcfg Hf Hb).
  unfold solveFromText.
  rewrite (textOnlySolve_content _ _ _ _ _ (chatCompletion_answers _ _ _ _ w tr c Hans)).
  rewrite (parseResponse_no_block c _ Hne Hnb).
  unfold fallback. rewrite fallback_steps_visible.
  pose proof (trim_not_blank t Hb) as Ht.
  destruct (JsString.trim t) as [|x t'] eqn:E; [done|]. reflexivity.
Qed.

Lemma solve_text_route_prose_witness :
  solve_text_route sample_config (ObjectBody [("text", JString " 2+2 ")])
    (always (completion_body "Add the numbers. The sum is 4.")) []
  = (Ok {| status := 200;
           body := SolutionBody (Some
             {| previewText := JString "2+2";
                answer := JString "See explanation below";
                steps := [JString "Add the numbers. The sum is 4."];
                explanation := JString "Add the numbers. The sum is 4." |}) |},
     [text_request "2+2"]).
Proof.
  apply (solve_text_route_prose sample_config (ObjectBody [("text", JString " 2+2 ")])
           " 2+2 " (always (completion_body "Add the numbers. The sum is 4.")) []
           "Add the numbers. The sum is 4.").
  - reflexivity.
  - reflexivity.
  - reflexivity.
  - eexists 200%N, _, _. repeat split; reflexivity.
  - discriminate.
  - apply no_block_without_open. reflexivity.
Defined.




(** ** The credential: start-up check, health flag and route gate *)

(** X18. The start-up check and the gate of the routes agree: [validateEnv]
    accepts the environment exactly when the routes find the credential of
    the [config] made from it configured, that is, set, not empty and not the
    placeholder. *)
Theorem validateEnv_agrees_with_gate (process_env : gmap string string) :
  Env.validateEnv process_env = credential_configured (Env.config_of process_env).
Proof.
  unfold Env.validateEnv, credential_configured, Env.config_of, Env.present. simpl.
  destruct (process_env !! "HUGGINGFACE_API_KEY") as [k|]; simpl; [|done].
  destruct (String.eqb k EmptyString); simpl; [done|].
  by destruct (String.eqb k "hf_your_key_here").
Qed.

Lemma solve_route_configured_status cfg req_body w tr :
  credential_configured cfg = true ->
  forall r tr', solve_route cfg req_body w tr = (Ok r, tr') -> status r <> 503%N.
Proof.
  intros Hcfg r tr'. unfold solve_route, try_catch. rewrite Hcfg. cbn [negb].
  destruct (JsValue.truthy (field "image" req_body)); [|by intros [= <- _]]. cbn [negb].
  destruct (field "image" req_body) as [[| | |image| |]|]; try by intros [= <- _].
  destruct (exceeds _ _); [by intros [= <- _]|]. unfold bind at 1.
  destruct (solveFromImage image w tr) as [[s|e] tr'']; by intros [= <- _].
Qed.

Lemma solve_text_route_configured_status cfg req_body w tr :
  credential_configured cfg = true ->
  forall r tr', solve_text_route cfg req_body w tr = (Ok r, tr') -> status r <> 503%N.
Proof.
  intros Hcfg r tr'. unfold solve_text_route, try_catch. rewrite Hcfg. cbn [negb].
  destruct (field "text" req_body) as [[| | |t| |]|]; try by intros [= <- _].
  destruct (_ || _); [by intros [= <- _]|]. unfold bind at 1.
  destruct (solveFromText (JsString.trim t) w tr) as [[s|e] tr'']; by intros [= <- _].
Qed.

(** X19. [GET /health] always answers 200 with the status "ok", and its
    flag [apiKeyConfigured] tells what the solving routes will do: the flag
    is false exactly when [/solve] and [/solve-text] answer 503
    MISSING_API_KEY, whatever the request. *)
Theorem health_flag_predicts_gate
    (cfg : config) (nodeEnv isoNow : string) (processUptime : Q)
    (req_body : parsed_body) (w : world) (tr : list request) :
  let answer := Health.health_route cfg nodeEnv isoNow processUptime in
  answer.1 = 200%N
  /\ Health.health_status answer.2 = "ok"
  /\ (Health.apiKeyConfigured answer.2 = false
      <-> exists msg, solve_route cfg req_body w tr
                      = (Ok {| status := 503; body := ErrorBody msg "MISSING_API_KEY" |}, tr))
  /\ (Health.apiKeyConfigured answer.2 = false
      <-> exists msg, solve_text_route cfg req_body w tr
                      = (Ok {| status := 503; body := ErrorBody msg "MISSING_API_KEY" |}, tr)).
Proof.
  intros answer. subst answer. simpl.
  assert ((match hfApiKey cfg with
           | Some k => if String.eqb k EmptyString then false
                       else negb (String.eqb k "hf_your_key_here")
           | None => false
           end) = credential_configured cfg) as ->.
  { unfold credential_configured. destruct (hfApiKey cfg) as [k|]; [|done].
    by destruct (String.eqb k EmptyString). }
  split; [done|]. split; [done|]. split; split.
  - apply solve_route_unconfigured.
  - intros [msg H]. destruct (credential_configured cfg) eqn:Hcfg; [|done].
    by destruct (solve_route_configured_status cfg req_body w tr Hcfg _ _ H).
  - intros Hcfg. unfold solve_text_route, try_catch. rewrite Hcfg. by eexists.
  - intros [msg H]. destruct (credential_configured cfg) eqn:Hcfg; [|done].
    by destruct (solve_text_route_configured_status cfg req_body w tr Hcfg _ _ H).
Qed.

Lemma health_flag_predicts_gate_witness :
  Health.apiKeyConfigured
    (Health.health_route {| hfApiKey := Some "hf_your_key_here" |} "production"
       "2026-11-02T21:00:00.000Z" (7 # 2)).2 = false
  /\ exists msg, solve_route {| hfApiKey := Some "hf_your_key_here" |}
                   (ObjectBody [("image", JString "iVBORw0KGgo=")]) offline []
                 = (Ok {| status := 503; body := ErrorBody msg "MISSING_API_KEY" |}, []).
Proof.
  split; [reflexivity|].
  apply (health_flag_predicts_gate {| hfApiKey := Some "hf_your_key_here" |} "production"
           "2026-11-02T21:00:00.000Z" (7 # 2)
           (ObjectBody [("image", JString "iVBORw0KGgo=")]) offline []).
  reflexivity.
Defined.

(** ** The browser and the answers of [/solve] *)



(** ** The marks of the steps *)



(** ** The history under saves and clears *)

Module ClientHistory.

Import History Client.

Section WithSolution.

Context {Sol : Type}.

Implicit Types (ls : gmap string (list (HistoryItem Sol))).


Lemma act_bound ls (a : action Sol) :
  (List.length (readHistory ls) <= 50)%nat ->
  (List.length (readHistory (act ls a)) <= 50)%nat.
Proof.
  intros Hle. destruct a as [c s|[|]]; simpl.
  - rewrite HistoryFacts.readHistory_save, HistoryFacts.length_pushed.
    destruct (50 <? _)%nat eqn:E; [lia|]. apply Nat.ltb_ge in E. lia.
  - unfold readHistory. rewrite lookup_delete_eq. simpl. lia.
  - done.
Qed.

End WithSolution.

End ClientHistory.

(** X22. The bound holds of every history the application itself produces:
    from a stored list of at most 50 entries, the empty store included, any
    sequence of saves and clears leaves at most 50 entries. *)
Theorem history_bound_invariant
    (Sol : Type) (actions : list (Client.action Sol))
    (localStorage : gmap string (list (History.HistoryItem Sol))) :
  (List.length (History.readHistory localStorage) <= 50)%nat ->
  (List.length (History.readHistory (foldl Client.act localStorage actions)) <= 50)%nat.
Proof.
  revert localStorage. induction actions as [|a actions IH]; intros ls Hle; [done|].
  simpl. apply IH. by apply ClientHistory.act_bound.
Qed.

Lemma history_bound_invariant_witness :
  (List.length
     (History.readHistory
        (foldl Client.act ∅
           (map (fun cs => Client.Shown cs.1 cs.2) sample_saves
            ++ [Client.ClearPressed false]
            ++ map (fun cs => Client.Shown cs.1 cs.2) sample_saves))) <= 50)%nat.
Proof.
  apply (history_bound_invariant string).
  unfold History.readHistory. rewrite lookup_empty. simpl. lia.
Defined.





(** X25. Any number of saves on a history within the bound leaves the 50
    newest of all items, new and old, the newest first: the new items in the
    reverse of the order they were saved in, then the old ones, cut at 50. *)
Theorem history_after_saves
    (Sol : Type) (saves : list (History.clock * Sol))
    (localStorage : gmap string (list (History.HistoryItem Sol))) :
  (List.length (History.readHistory localStorage) <= 50)%nat ->
  History.readHistory (History.saveAll saves localStorage)
  = take 50 (reverse (map History.item saves) ++ History.readHistory localStorage).
Proof. apply HistoryFacts.readHistory_saveAll. Qed.

Lemma history_after_saves_witness :
  History.readHistory (History.saveAll (take 3 sample_saves) ∅)
  = take 50 (reverse (map History.item (take 3 sample_saves)) ++ History.readHistory ∅).
Proof.
  apply (history_after_saves string (take 3 sample_saves) ∅).
  unfold History.readHistory. rewrite lookup_empty. simpl. lia.
Defined.

(** ** The step simplifier *)

Module SimplifyFacts.

Import Simplify.

Lemma literal_prev p s prev prev' :
  literal p s prev = None -> literal p s prev' = None.
Proof. destruct p as [|a p]; [discriminate|done]. Qed.

Lemma match_at_no_literal r prev s :
  literal (stem r) s None = None -> match_at r prev s = None.
Proof.
  intros H. unfold match_at. rewrite (literal_prev _ _ None prev H).
  by destruct (boundary prev s).
Qed.

Lemma replace_from_absent r s :
  occurs_ci (stem r) s = false -> forall prev, replace_from r prev 0 s = s.
Proof.
  induction s as [|c s IH]; intros Hocc prev; [done|].
  simpl in Hocc. destruct (literal (stem r) (String c s) None) eqn:Hl; [discriminate|].
  simpl. rewrite (match_at_no_literal r prev (String c s) Hl).
  by rewrite IH.
Qed.

Lemma fold_absent (rules : list rule) step :
  forallb (fun r => negb (occurs_ci (stem r) step)) rules = true ->
  fold_left (fun simple r => replace_from r None 0 simple) rules step = step.
Proof.
  induction rules as [|r rules IH]; [done|]. simpl.
  intros [Hr Hrest]%andb_true_iff. apply negb_true_iff in Hr.
  rewrite (replace_from_absent r step Hr). by apply IH.
Qed.

End SimplifyFacts.

(** X26. [simplifyStep] leaves a step as it is when none of the words it
    looks for stands in it, in whatever case: formulas and plain wording
    pass unchanged. *)
Theorem simplifyStep_unchanged (step : string) :
  forallb (fun r => negb (Simplify.occurs_ci (Simplify.stem r) step))
          Simplify.simplifications = true ->
  Simplify.simplifyStep step = step.
Proof. apply SimplifyFacts.fold_absent. Qed.

Lemma simplifyStep_unchanged_witness :
  Simplify.simplifyStep "Step 2: x^2 + 2x = 8, so x = 2 or x = -4"
  = "Step 2: x^2 + 2x = 8, so x = 2 or x = -4".
Proof.
  apply (simplifyStep_unchanged "Step 2: x^2 + 2x = 8, so x = 2 or x = -4"). reflexivity.
Defined.

(** The rules work on each other's output: [integrand] becomes a phrase with
    [expression] in it, which a later rule rewrites; and a second pass would
    rewrite the [integral] that the first pass put there. *)
Lemma simplifyStep_cascade :
  Simplify.simplifyStep "integrand" = "the math phrase inside the integral"
  /\ Simplify.simplifyStep (Simplify.simplifyStep "integrand")
     = "the math phrase inside the the area under the curve".
Proof. split; reflexivity. Qed.

(** ** The first server *)







